(** * vsm: a vim session manager

    Verification development for the Python package [vim_session_manager]
    (imported as [vsm]):

    - [src/vim_session_manager/__init__.py]: the [ThreadSafeMeta] singleton
      metaclass and the [Config] class;
    - [src/vsm/main.py]: the entry point [main].

    The classes [ShellManager], [VimSessionManager], [Cli] and [Log] that
    [main] calls are not part of the sources at hand.  [main] is embedded
    over them as uninterpreted operations; where a statement is about what
    they do, they are modelled from the specification and marked so. *)

From stdpp Require Import base gmap strings list relations.
From Stdlib Require Import ZArith Lia Ascii.

Local Open Scope string_scope.
Local Open Scope nat_scope.
Local Open Scope list_scope.

(** ** Paths

    [pathlib.Path] values are kept as their string form.  Only the part of
    [/] that the program relies on is written out: an absolute right operand
    replaces the left one, a relative one is appended after a separator.
    pathlib's normalisation of redundant separators and dots is outside the
    model. *)

Definition Path := string.

Definition is_absolute (p : Path) : bool :=
  String.prefix "/" p.

Definition path_div (a b : Path) : Path :=
  if is_absolute b then b else a +:+ "/" +:+ b.

Infix "+/+" := path_div (at level 40, left associativity).

(** ** [Config]  (src/vim_session_manager/__init__.py, lines 40-102)

    The class attributes are evaluated once, when the module is imported.
    Two things they are built from depend on the process: [__package__] and
    [Path.home()], gathered in [ImportEnv].  [base_dir], computed from the
    location of the module file, is read by nothing here and is left out. *)

Record ImportEnv := {
  import_package : string;   (* [__package__] of the module *)
  home_dir : Path;           (* [Path.home()] *)
}.

Module Config.

Definition version : string := "0.1.0".
Definition package (ie : ImportEnv) : string := import_package ie.
Definition executable : string := "vsm".
Definition config_dir (ie : ImportEnv) : Path :=
  home_dir ie +/+ ".config" +/+ import_package ie.
Definition vsm_env_var : string := "VIM_SESSIONS".
Definition default_sessions_directory (ie : ImportEnv) : Path :=
  home_dir ie +/+ ".config" +/+ "vim_sessions".

End Config.

(** ** [ThreadSafeMeta]  (src/vim_session_manager/__init__.py, lines 9-37)

    [__call__] is embedded as a small-step machine, one step per statement,
    so that calls made by several threads can be interleaved.  The class
    attributes [_instances] and [_lock] form the shared state; [call] is
    [__call__] run by one thread from its first statement to its last. *)

Module ThreadSafeMeta.

Definition Cls := string.
Definition ObjId := nat.

(** How a call of the class ends. *)
Inductive CallResult :=
| Returned (i : ObjId)      (* [return cls._instances[cls]] *)
| RaisedInit                (* [super().__call__] raised *)
| RaisedKeyError.           (* [cls._instances[cls]] without an entry *)

(** Program points of [__call__]. *)
Inductive Pc :=
| PEnter                    (* before [with cls._lock:] *)
| PCheck                    (* before [if cls not in cls._instances:] *)
| PConstruct                (* before [instance = super().__call__(...)] *)
| PStore (i : ObjId)        (* before [cls._instances[cls] = instance] *)
| PExit                     (* leaving the [with] block *)
| PExitRaise                (* leaving the [with] block by an exception *)
| PReturn                   (* before [return cls._instances[cls]] *)
| PDone (r : CallResult).

(** What happened to the lock and to the object store, in order. *)
Inductive SEvent :=
| Acquire
| Release
| Construct (c : Cls) (i : ObjId).

Global Instance CallResult_eq_dec : EqDecision CallResult.
Proof. solve_decision. Defined.
Global Instance Pc_eq_dec : EqDecision Pc.
Proof. solve_decision. Defined.
Global Instance SEvent_eq_dec : EqDecision SEvent.
Proof. solve_decision. Defined.

(** The statements inside the [with] block. *)
Definition in_cs (pc : Pc) : bool :=
  match pc with
  | PCheck | PConstruct | PStore _ | PExit | PExitRaise => true
  | PEnter | PReturn | PDone _ => false
  end.

Definition is_construct (c : Cls) (e : SEvent) : bool :=
  match e with
  | Construct c' _ => bool_decide (c' = c)
  | _ => false
  end.

(** How many objects of class [c] were created. *)
Definition constructions (c : Cls) (evs : list SEvent) : nat :=
  length (filter (λ e, is_construct c e = true) evs).

(** Statements left to run, at most. *)
Definition weight (pc : Pc) : nat :=
  match pc with
  | PEnter => 6
  | PCheck => 5
  | PConstruct => 4
  | PStore _ => 3
  | PExit => 2
  | PExitRaise => 1
  | PReturn => 1
  | PDone _ => 0
  end.

Section Meta.

(** [Args] stands for [*args, **kwargs], [ObjState] for what an instance
    holds.  [construct c a] is the call [super().__call__] with them for
    the class [c]: the state of the new object, or [None] when
    [__new__] or [__init__] raises.  Constructors that themselves call
    a class of this metaclass are not covered. *)
Context {Args ObjState : Type}.
Variable construct : Cls → Args → option ObjState.

Record Thread := MkThread {
  t_cls : Cls;
  t_args : Args;
  t_pc : Pc;
}.

Record Shared := MkShared {
  lock : bool;                   (* [_lock] is held *)
  instances : gmap Cls ObjId;    (* [_instances] *)
  heap : list ObjState;          (* objects created so far, by identity *)
  events : list SEvent;
}.

Definition init_shared : Shared :=
  {| lock := false; instances := ∅; heap := []; events := [] |}.

Definition new_thread (c : Cls) (a : Args) : Thread :=
  {| t_cls := c; t_args := a; t_pc := PEnter |}.

Definition at_pc (t : Thread) (pc : Pc) : Thread :=
  {| t_cls := t_cls t; t_args := t_args t; t_pc := pc |}.

(** One statement of [__call__] run by thread [t]; [None] when the
    thread cannot move (it waits for the lock, or it has finished). *)
Definition thread_step (t : Thread) (s : Shared) : option (Thread * Shared) :=
  match t_pc t with
  | PEnter =>
      if lock s then None
      else Some (at_pc t PCheck,
                 {| lock := true; instances := instances s;
                    heap := heap s; events := events s ++ [Acquire] |})
  | PCheck =>
      match instances s !! t_cls t with
      | None => Some (at_pc t PConstruct, s)
      | Some _ => Some (at_pc t PExit, s)
      end
  | PConstruct =>
      match construct (t_cls t) (t_args t) with
      | Some o =>
          let i := length (heap s) in
          Some (at_pc t (PStore i),
                {| lock := lock s; instances := instances s;
                   heap := heap s ++ [o];
                   events := events s ++ [Construct (t_cls t) i] |})
      | None => Some (at_pc t PExitRaise, s)
      end
  | PStore i =>
      Some (at_pc t PExit,
            {| lock := lock s; instances := <[t_cls t := i]> (instances s);
               heap := heap s; events := events s |})
  | PExit =>
      Some (at_pc t PReturn,
            {| lock := false; instances := instances s;
               heap := heap s; events := events s ++ [Release] |})
  | PExitRaise =>
      Some (at_pc t (PDone RaisedInit),
            {| lock := false; instances := instances s;
               heap := heap s; events := events s ++ [Release] |})
  | PReturn =>
      match instances s !! t_cls t with
      | Some i => Some (at_pc t (PDone (Returned i)), s)
      | None => Some (at_pc t (PDone RaisedKeyError), s)
      end
  | PDone _ => None
  end.

(** *** One call, run to its end *)

Fixpoint run_thread (fuel : nat) (t : Thread) (s : Shared) : Thread * Shared :=
  match fuel with
  | O => (t, s)
  | S fuel' =>
      match thread_step t s with
      | Some (t', s') => run_thread fuel' t' s'
      | None => (t, s)
      end
  end.

(** A call of the class [c] by one thread with nobody else running.  The
    longest path through [__call__] has six statements.  [None] means
    the call never returns (the lock is held and never released). *)
Definition call (c : Cls) (a : Args) (s : Shared) : option (CallResult * Shared) :=
  let '(t, s') := run_thread 6 (new_thread c a) s in
  match t_pc t with
  | PDone r => Some (r, s')
  | _ => None
  end.

(** Calls made one after the other, each started when the one before
    has ended. *)
Fixpoint call_seq (cs : list (Cls * Args)) (s : Shared)
  : option (list CallResult * Shared) :=
  match cs with
  | [] => Some ([], s)
  | (c, a) :: cs' =>
      match call c a s with
      | Some (r, s') =>
          match call_seq cs' s' with
          | Some (rs, s'') => Some (r :: rs, s'')
          | None => None
          end
      | None => None
      end
  end.

(** The shared state after a call that took the lock and found the
    instance in place. *)
Definition locked_lookup (s : Shared) : Shared :=
  {| lock := false; instances := instances s; heap := heap s;
     events := (events s ++ [Acquire]) ++ [Release] |}.

(** *** Several threads *)

Definition Sys : Type := list Thread * Shared.

Inductive step : Sys → Sys → Prop :=
| step_thread pool s k t t' s' :
    pool !! k = Some t →
    thread_step t s = Some (t', s') →
    step (pool, s) (<[k := t']> pool, s').

Definition done_pc (pc : Pc) : bool :=
  match pc with PDone _ => true | _ => false end.

Definition all_done (pool : list Thread) : Prop :=
  ∀ k t, pool !! k = Some t → done_pc (t_pc t) = true.

Definition total_weight (pool : list Thread) : nat :=
  sum_list_with (λ t, weight (t_pc t)) pool.

(** *** The invariant of the machine *)

(** What a thread at each program point knows about the shared state. *)
Definition thread_ok (s : Shared) (t : Thread) : Prop :=
  match t_pc t with
  | PEnter | PCheck => True
  | PConstruct => instances s !! t_cls t = None
  | PStore i =>
      instances s !! t_cls t = None ∧
      ∃ o, construct (t_cls t) (t_args t) = Some o ∧ heap s !! i = Some o
  | PExit | PReturn => is_Some (instances s !! t_cls t)
  | PExitRaise => construct (t_cls t) (t_args t) = None
  | PDone (Returned i) => instances s !! t_cls t = Some i
  | PDone RaisedInit => construct (t_cls t) (t_args t) = None
  | PDone RaisedKeyError => False
  end.

(** Object [i] is what constructing class [c] produced. *)
Definition built (s : Shared) (c : Cls) (i : ObjId) : Prop :=
  ∃ a o, construct c a = Some o ∧ heap s !! i = Some o.

Definition storing (pool : list Thread) (c : Cls) : Prop :=
  ∃ k t i, pool !! k = Some t ∧ t_cls t = c ∧ t_pc t = PStore i.

Record Inv (σ : Sys) : Prop := MkInv {
  inv_free : lock σ.2 = false →
    ∀ k t, σ.1 !! k = Some t → in_cs (t_pc t) = false;
  inv_held : lock σ.2 = true →
    ∃ k t, σ.1 !! k = Some t ∧ in_cs (t_pc t) = true;
  inv_excl : ∀ k1 k2 t1 t2,
    σ.1 !! k1 = Some t1 → σ.1 !! k2 = Some t2 →
    in_cs (t_pc t1) = true → in_cs (t_pc t2) = true → k1 = k2;
  inv_threads : ∀ k t, σ.1 !! k = Some t → thread_ok σ.2 t;
  inv_valid : ∀ c i,
    instances σ.2 !! c = Some i → built σ.2 c i;
  inv_once : ∀ c,
    constructions c (events σ.2) ≤ 1 ∧
    (constructions c (events σ.2) = 1 →
     is_Some (instances σ.2 !! c) ∨ storing σ.1 c);
}.

End Meta.

Global Arguments Thread : clear implicits.
Global Arguments Shared : clear implicits.
Global Arguments Sys : clear implicits.

End ThreadSafeMeta.

(** ** Calling [Config]

    [Config] declares neither [__new__] nor [__init__]: it is constructed
    without arguments (anything else raises [TypeError]) and its instances
    have no attributes of their own. *)

Inductive PyVal :=
| PyInt (z : Z)
| PyStr (s : string).

Record CallArgs := {
  positional : list PyVal;
  keywords : list (string * PyVal);
}.

Definition no_args : CallArgs := {| positional := []; keywords := [] |}.

Definition construct_Config (a : CallArgs) : option (gmap string PyVal) :=
  match positional a, keywords a with
  | [], [] => Some ∅
  | _, _ => None
  end.

(** The classes of the package that use [ThreadSafeMeta]: [Config] only. *)
Definition package_classes (c : ThreadSafeMeta.Cls) (a : CallArgs)
  : option (gmap string PyVal) :=
  if bool_decide (c = "Config") then construct_Config a else None.

(** [m] threads, each about to evaluate [Config()]. *)
Definition config_calls (m : nat) : list (ThreadSafeMeta.Thread CallArgs) :=
  replicate m (ThreadSafeMeta.new_thread "Config" no_args).

(** ** The entry point and what it calls

    [main] (src/vsm/main.py) calls [ShellManager], [Cli],
    [VimSessionManager] and [Log], whose code is not at hand.  Each call is
    an operation [Op R] with an answer of type [R]; [main] is a tree of
    such calls, written statement by statement from the source. *)

(** [Ok] and [Err] of the [result] package. *)
Inductive Result (T E : Type) : Type :=
| Ok (v : T)
| Err (e : E).
Arguments Ok {T E} v.
Arguments Err {T E} e.

Module Cli.

(** The parsed options [cli.args], with the fields [main] reads. *)
Record Args := {
  list_sessions : bool;
  remove_session : option string;
  open_session : option string;
  the_current_state_of_things : bool;
}.

End Cli.

Inductive SessionError :=
| SessionNotFound (p : Path).

Inductive ExecutionError :=
| ExecutionFailure (msg : string).

(** What [Path.unlink] raises. *)
Inductive Exn :=
| FileNotFoundError (p : Path)
| IsADirectoryError (p : Path).

Inductive Level := LInfo | LWarn | LError.

(** The argument of [Log.info], [Log.warn] and [Log.error]: a string, or
    the payload of an [Err]. *)
Inductive LogMsg :=
| MsgText (s : string)
| MsgSession (e : SessionError)
| MsgExecution (e : ExecutionError).

Inductive Op : Type → Type :=
| NewShellManager : Op unit                     (* [ShellManager()] *)
| IsInstalled (name : string) : Op bool         (* [shell.is_installed] *)
| NewCli : Op Cli.Args                          (* [Cli()], then [cli.args] *)
| NewSessionManager : Op unit                   (* [VimSessionManager()] *)
| ListSessions : Op (list Path)                 (* [vsm.list_sessions()] *)
| RemoveSession (p : Path) : Op (Result Path SessionError)
| OpenSession (p : Path) : Op (Result Path SessionError)
| Unlink (p : Path) : Op (option Exn)           (* [value.unlink()] *)
| Execute (cmd : string) : Op (Result unit ExecutionError)
| Log (l : Level) (m : LogMsg) : Op unit.

(** A call together with its answer. *)
Inductive Event :=
| EvNewShellManager
| EvIsInstalled (name : string) (b : bool)
| EvNewCli (a : Cli.Args)
| EvNewSessionManager
| EvListSessions (found : list Path)
| EvRemoveSession (p : Path) (r : Result Path SessionError)
| EvOpenSession (p : Path) (r : Result Path SessionError)
| EvUnlink (p : Path) (r : option Exn)
| EvExecute (cmd : string) (r : Result unit ExecutionError)
| EvLog (l : Level) (m : LogMsg).

Definition event_of {R : Type} (op : Op R) : R → Event :=
  match op in Op R return R → Event with
  | NewShellManager => λ _, EvNewShellManager
  | IsInstalled name => EvIsInstalled name
  | NewCli => EvNewCli
  | NewSessionManager => λ _, EvNewSessionManager
  | ListSessions => EvListSessions
  | RemoveSession p => EvRemoveSession p
  | OpenSession p => EvOpenSession p
  | Unlink p => EvUnlink p
  | Execute cmd => EvExecute cmd
  | Log l m => λ _, EvLog l m
  end.

(** Programs over the operations: return, raise, or call and go on. *)
Inductive Prog (A : Type) : Type :=
| Ret (a : A)
| Throw (e : Exn)
| Vis {R : Type} (op : Op R) (k : R → Prog A).
Arguments Ret {A} a.
Arguments Throw {A} e.
Arguments Vis {A R} op k.

Fixpoint bind {A B : Type} (m : Prog A) (f : A → Prog B) : Prog B :=
  match m with
  | Ret a => f a
  | Throw e => Throw e
  | Vis op k => Vis op (λ r, bind (k r) f)
  end.

Definition invoke {R : Type} (op : Op R) : Prog R := Vis op Ret.

Notation "'do' x <- m ;; k" := (bind m (λ x, k))
  (at level 10, x name, m at level 99, k at level 200,
   format "'[v' 'do'  x  <-  m  ;;  '/' k ']'").

(** How a run ends: [return z], or an exception nobody catches. *)
Inductive Outcome (A : Type) : Type :=
| Returns (a : A)
| Raises (e : Exn).
Arguments Returns {A} a.
Arguments Raises {A} e.

(** Truth value of an optional string, as [if] and [elif] take it: [None]
    and the empty string are false. *)
Definition truthy (o : option string) : option string :=
  match o with
  | Some x => if bool_decide (x = EmptyString) then None else Some x
  | None => None
  end.

(** [value.unlink()]: an exception ends the program. *)
Definition unlink (p : Path) : Prog unit :=
  do r <- invoke (Unlink p) ;;
  match r with
  | None => Ret tt
  | Some e => Throw e
  end.

Module Main.

Definition no_editor_message : string :=
  "No variant of vim was found on your system".

Definition no_arguments_message (ie : ImportEnv) : string :=
  "No arguments give, please use `" +:+ Config.package ie +:+
  " --help` for usage information".

Definition under_development_message : string :=
  "This feature is currently under development".

(** [main()], src/vsm/main.py lines 20-74.  A branch yields [Some z]
    where the source has [return z] and [None] where control falls
    through to the final [return 0]. *)
Definition main (ie : ImportEnv) : Prog Z :=
  do _ <- invoke NewShellManager ;;
  do no_nvim <- (do b <- invoke (IsInstalled "nvim") ;; Ret (negb b)) ;;
  do no_editor <- (if no_nvim : bool
                   then do b <- invoke (IsInstalled "vim") ;; Ret (negb b)
                   else Ret false) ;;
  if no_editor : bool then
    do _ <- invoke (Log LError (MsgText no_editor_message)) ;;
    Ret 1%Z
  else
    do cli <- invoke NewCli ;;
    do _ <- invoke NewSessionManager ;;
    do returned <-
      (if Cli.list_sessions cli then
         do _ <- invoke ListSessions ;;
         Ret None
       else match truthy (Cli.remove_session cli) with
       | Some x =>
           let session : Path := x in
           do r <- invoke (RemoveSession session) ;;
           match r with
           | Ok value =>
               do _ <- invoke (Log LWarn (MsgText ("Removing session -> " +:+ value))) ;;
               do _ <- unlink value ;;
               do _ <- invoke (Log LInfo (MsgText "Done..")) ;;
               Ret None
           | Err e =>
               do _ <- invoke (Log LError (MsgSession e)) ;;
               Ret (Some 1%Z)
           end
       | None =>
       match truthy (Cli.open_session cli) with
       | Some x =>
           let session : Path := x in
           do r <- invoke (OpenSession session) ;;
           match r with
           | Ok value =>
               do _ <- invoke (Log LInfo (MsgText ("Loading session -> " +:+ value))) ;;
               do r' <- invoke (Execute ("nvim -S " +:+ value)) ;;
               match r' with
               | Ok _ => Ret (Some 0%Z)
               | Err fail =>
                   do _ <- invoke (Log LError (MsgExecution fail)) ;;
                   Ret (Some 1%Z)
               end
           | Err e =>
               do _ <- invoke (Log LError (MsgSession e)) ;;
               Ret (Some 1%Z)
           end
       | None =>
       if Cli.the_current_state_of_things cli then
         do _ <- invoke (Log LWarn (MsgText under_development_message)) ;;
         Ret None
       else
         do _ <- invoke (Log LError (MsgText (no_arguments_message ie))) ;;
         Ret (Some 1%Z)
       end end) ;;
    match returned with
    | Some z => Ret z
    | None => Ret 0%Z
    end.

End Main.

(** ** Running the entry point

    The collaborators are parameters: [Answers] gives what each of them
    returns when called.  [main] calls none of them twice with the same
    argument, so one answer per call is all a run can see. *)

Record Answers := {
  ans_is_installed : string → bool;
  ans_args : Cli.Args;
  ans_list_sessions : list Path;
  ans_remove_session : Path → Result Path SessionError;
  ans_open_session : Path → Result Path SessionError;
  ans_unlink : Path → option Exn;
  ans_execute : string → Result unit ExecutionError;
}.

Definition answer {R : Type} (a : Answers) (op : Op R) : R :=
  match op in Op R return R with
  | NewShellManager => tt
  | IsInstalled name => ans_is_installed a name
  | NewCli => ans_args a
  | NewSessionManager => tt
  | ListSessions => ans_list_sessions a
  | RemoveSession p => ans_remove_session a p
  | OpenSession p => ans_open_session a p
  | Unlink p => ans_unlink a p
  | Execute cmd => ans_execute a cmd
  | Log _ _ => tt
  end.

(** The calls made, in order, and how the run ends. *)
Fixpoint exec {A : Type} (p : Prog A) (a : Answers) : list Event * Outcome A :=
  match p with
  | Ret x => ([], Returns x)
  | Throw e => ([], Raises e)
  | Vis op k =>
      let r := answer a op in
      let '(tr, o) := exec (k r) a in
      (event_of op r :: tr, o)
  end.

(** Calls that read or change files or start a process. *)
Definition touches_filesystem (e : Event) : bool :=
  match e with
  | EvListSessions _ | EvRemoveSession _ _ | EvOpenSession _ _
  | EvUnlink _ _ | EvExecute _ _ => true
  | EvNewShellManager | EvIsInstalled _ _ | EvNewCli _
  | EvNewSessionManager | EvLog _ _ => false
  end.

Definition no_flags (a : Cli.Args) : Prop :=
  Cli.list_sessions a = false ∧
  truthy (Cli.remove_session a) = None ∧
  truthy (Cli.open_session a) = None ∧
  Cli.the_current_state_of_things a = false.

(** ** The dispatch as the specification words it

    "The entry point checks flags in a fixed priority order (list, then
    remove, then open, then status, then the no-arguments fallback) and only
    the first matching flag's branch executes." *)

Inductive Command :=
| CmdList
| CmdRemove (x : string)
| CmdOpen (x : string)
| CmdStatus
| CmdNone.

(** The flags that match, in priority order. *)
Definition matching_flags (a : Cli.Args) : list Command :=
  (if Cli.list_sessions a then [CmdList] else []) ++
  option_list (CmdRemove <$> truthy (Cli.remove_session a)) ++
  option_list (CmdOpen <$> truthy (Cli.open_session a)) ++
  (if Cli.the_current_state_of_things a then [CmdStatus] else []).

Definition select_command (a : Cli.Args) : Command :=
  default CmdNone (head (matching_flags a)).

(** One branch per command: what the specification lists under "Dispatch
    order and behavior", giving the exit code. *)
Definition run_command (ie : ImportEnv) (c : Command) : Prog Z :=
  match c with
  | CmdList =>
      do _ <- invoke ListSessions ;;
      Ret 0%Z
  | CmdRemove x =>
      do r <- invoke (RemoveSession x) ;;
      match r with
      | Ok value =>
          do _ <- invoke (Log LWarn (MsgText ("Removing session -> " +:+ value))) ;;
          do _ <- unlink value ;;
          do _ <- invoke (Log LInfo (MsgText "Done..")) ;;
          Ret 0%Z
      | Err e =>
          do _ <- invoke (Log LError (MsgSession e)) ;;
          Ret 1%Z
      end
  | CmdOpen x =>
      do r <- invoke (OpenSession x) ;;
      match r with
      | Ok value =>
          do _ <- invoke (Log LInfo (MsgText ("Loading session -> " +:+ value))) ;;
          do r' <- invoke (Execute ("nvim -S " +:+ value)) ;;
          match r' with
          | Ok _ => Ret 0%Z
          | Err fail =>
              do _ <- invoke (Log LError (MsgExecution fail)) ;;
              Ret 1%Z
          end
      | Err e =>
          do _ <- invoke (Log LError (MsgSession e)) ;;
          Ret 1%Z
      end
  | CmdStatus =>
      do _ <- invoke (Log LWarn (MsgText Main.under_development_message)) ;;
      Ret 0%Z
  | CmdNone =>
      do _ <- invoke (Log LError (MsgText (Main.no_arguments_message ie))) ;;
      Ret 1%Z
  end.

(** Preflight, then the one selected command. *)
Definition main_by_priority (ie : ImportEnv) : Prog Z :=
  do _ <- invoke NewShellManager ;;
  do nvim <- invoke (IsInstalled "nvim") ;;
  do editor <- (if nvim : bool then Ret true else invoke (IsInstalled "vim")) ;;
  if editor : bool then
    do cli <- invoke NewCli ;;
    do _ <- invoke NewSessionManager ;;
    run_command ie (select_command cli)
  else
    do _ <- invoke (Log LError (MsgText Main.no_editor_message)) ;;
    Ret 1%Z.

Inductive Branch := BList | BRemove | BOpen | BStatus | BNone.

Definition branch_of_command (c : Command) : Branch :=
  match c with
  | CmdList => BList
  | CmdRemove _ => BRemove
  | CmdOpen _ => BOpen
  | CmdStatus => BStatus
  | CmdNone => BNone
  end.

(** The branch a call belongs to: the calls of the session manager, of
    [unlink] and of the shell, and the two messages that only the status
    and the fallback branch log.  The calls of the preflight and the
    constructors belong to none. *)
Definition branch_of_event (ie : ImportEnv) (e : Event) : option Branch :=
  match e with
  | EvListSessions _ => Some BList
  | EvRemoveSession _ _ | EvUnlink _ _ => Some BRemove
  | EvOpenSession _ _ | EvExecute _ _ => Some BOpen
  | EvLog LWarn (MsgText m) =>
      if bool_decide (m = Main.under_development_message)
      then Some BStatus else None
  | EvLog LError (MsgText m) =>
      if bool_decide (m = Main.no_arguments_message ie)
      then Some BNone else None
  | _ => None
  end.

(** ** The collaborators, from the specification

    A process environment with a file tree, and over it the operations of
    [ShellManager] and [VimSessionManager] as the specification describes
    them. *)

Inductive Node := File | Dir.

Global Instance Node_eq_dec : EqDecision Node.
Proof. solve_decision. Defined.

Inductive ChildExit :=
| Exited (status : Z) (stderr : string)
| SpawnFailed (msg : string).

Record World := {
  w_search_path : gset string;          (* executables found on the path *)
  w_environ : gmap string string;       (* [os.environ] *)
  w_args : Cli.Args;                    (* the parsed command line *)
  w_child : string → ChildExit;         (* what running a command gives *)
  w_files : gmap Path Node;             (* what exists on disk *)
  w_log : list (Level * LogMsg);        (* what was logged or printed *)
}.

Definition with_files (w : World) (fs : gmap Path Node) : World :=
  {| w_search_path := w_search_path w; w_environ := w_environ w;
     w_args := w_args w; w_child := w_child w;
     w_files := fs; w_log := w_log w |}.

Definition with_log (w : World) (l : list (Level * LogMsg)) : World :=
  {| w_search_path := w_search_path w; w_environ := w_environ w;
     w_args := w_args w; w_child := w_child w;
     w_files := w_files w; w_log := l |}.

Definition path_exists (w : World) (p : Path) : bool :=
  bool_decide (is_Some (w_files w !! p)).

Fixpoint strip_prefix (pre s : string) : option string :=
  match pre with
  | EmptyString => Some s
  | String a pre' =>
      match s with
      | String b s' => if bool_decide (a = b) then strip_prefix pre' s' else None
      | EmptyString => None
      end
  end.

Fixpoint has_separator (s : string) : bool :=
  match s with
  | EmptyString => false
  | String c s' => bool_decide (c = "/"%char) || has_separator s'
  end.

(** [p] names an entry of the directory [dir] itself, not of a
    subdirectory. *)
Definition directly_inside (dir p : Path) : bool :=
  match strip_prefix (dir +:+ "/") p with
  | Some name => negb (bool_decide (name = EmptyString)) && negb (has_separator name)
  | None => false
  end.

Module ShellManager.

(** Modelled from the spec: [ShellManager.is_installed] is not in the
    sources.  "True iff an executable with that name is resolvable on the
    current search path.  No side effects." *)
Definition is_installed (name : string) (w : World) : bool :=
  bool_decide (name ∈ w_search_path w).

(** Modelled from the spec: [ShellManager.execute] is not in the sources.
    "Success iff the process exits with status 0.  On nonzero exit or
    failure to spawn, returns a failure carrying a human-readable message
    (stderr or a description)." *)
Definition execute (cmd : string) (w : World) : Result unit ExecutionError :=
  match w_child w cmd with
  | Exited status stderr =>
      if bool_decide (status = 0%Z) then Ok tt
      else Err (ExecutionFailure stderr)
  | SpawnFailed msg => Err (ExecutionFailure msg)
  end.

End ShellManager.

Module VimSessionManager.

(** Modelled from the spec: [resolve_sessions_directory] is not in the
    sources.  "Reads the configured environment variable; if set and
    non-empty, use it as the directory; otherwise use the default sessions
    directory from Config." *)
Definition resolve_sessions_directory (ie : ImportEnv) (w : World) : Path :=
  match w_environ w !! Config.vsm_env_var with
  | Some v =>
      if bool_decide (v = EmptyString) then Config.default_sessions_directory ie
      else v
  | None => Config.default_sessions_directory ie
  end.

(** Modelled from the spec: [open_session] is not in the sources.
    "Treats the argument as a session name under the resolved sessions
    directory (or, if already absolute and existing, uses it directly).
    Returns success with the resolved, existing path, or failure with
    SessionNotFound if the file does not exist on disk."  Joining with
    [/] covers both: an absolute argument stands for itself. *)
Definition open_session (ie : ImportEnv) (session : Path) (w : World)
  : Result Path SessionError * World :=
  let resolved := resolve_sessions_directory ie w +/+ session in
  if path_exists w resolved then (Ok resolved, w)
  else (Err (SessionNotFound resolved), w).

(** Modelled from the spec: [remove_session] is not in the sources.
    "Identical resolution/validation to openSession; on success returns
    the resolved path but performs no deletion." *)
Definition remove_session (ie : ImportEnv) (session : Path) (w : World)
  : Result Path SessionError * World :=
  let resolved := resolve_sessions_directory ie w +/+ session in
  if path_exists w resolved then (Ok resolved, w)
  else (Err (SessionNotFound resolved), w).

(** Modelled from the spec: [list_sessions] is not in the sources.
    "Produces the session file paths found directly inside the sessions
    directory (no recursion into subdirectories); prints/logs each found
    session.  If the directory does not exist, behavior is no sessions." *)
Definition list_sessions (ie : ImportEnv) (w : World) : list Path * World :=
  let dir := resolve_sessions_directory ie w in
  let found :=
    match w_files w !! dir with
    | Some Dir =>
        filter (λ p, directly_inside dir p = true
                     ∧ w_files w !! p = Some File)
               (map_to_list (w_files w)).*1
    | _ => []
    end in
  (found, with_log w (w_log w ++ ((λ p, (LInfo, MsgText p)) <$> found))).

End VimSessionManager.

(** [Path.unlink()] of the standard library: removes a file, raises on a
    missing path or a directory. *)
Definition fs_unlink (p : Path) (w : World) : option Exn * World :=
  match w_files w !! p with
  | Some File => (None, with_files w (delete p (w_files w)))
  | Some Dir => (Some (IsADirectoryError p), w)
  | None => (Some (FileNotFoundError p), w)
  end.

(** Each operation of the entry point, answered in a world. *)
Definition handle {R : Type} (ie : ImportEnv) (op : Op R) (w : World) : R * World :=
  match op in Op R return R * World with
  | NewShellManager => (tt, w)
  | IsInstalled name => (ShellManager.is_installed name w, w)
  | NewCli => (w_args w, w)
  | NewSessionManager => (tt, w)
  | ListSessions => VimSessionManager.list_sessions ie w
  | RemoveSession p => VimSessionManager.remove_session ie p w
  | OpenSession p => VimSessionManager.open_session ie p w
  | Unlink p => fs_unlink p w
  | Execute cmd => (ShellManager.execute cmd w, w)
  | Log l m => (tt, with_log w (w_log w ++ [(l, m)]))
  end.

(** The entry point run in a world: the calls, the result and the world
    left behind. *)
Fixpoint interp {A : Type} (ie : ImportEnv) (p : Prog A) (w : World)
  : list Event * Outcome A * World :=
  match p with
  | Ret x => ([], Returns x, w)
  | Throw e => ([], Raises e, w)
  | Vis op k =>
      let '(r, w1) := handle ie op w in
      let '(tr, o, w2) := interp ie (k r) w1 in
      (event_of op r :: tr, o, w2)
  end.

(** What the collaborators answer in the world [w], taken at the start
    of the run. *)
Definition answers_of (ie : ImportEnv) (w : World) : Answers :=
  {| ans_is_installed := λ name, ShellManager.is_installed name w;
     ans_args := w_args w;
     ans_list_sessions := (VimSessionManager.list_sessions ie w).1;
     ans_remove_session := λ p, (VimSessionManager.remove_session ie p w).1;
     ans_open_session := λ p, (VimSessionManager.open_session ie p w).1;
     ans_unlink := λ p, (fs_unlink p w).1;
     ans_execute := λ cmd, ShellManager.execute cmd w |}.

(** ** A sample installation

    One user with one saved session, used to run the definitions above on
    concrete inputs. *)

Definition sample_env : ImportEnv :=
  {| import_package := "vsm";
     home_dir := "/home/user" |}.

Definition sample_files : gmap Path Node :=
  {[ "/home/user/.config/vim_sessions" := Dir;
     "/home/user/.config/vim_sessions/work.vim" := File ]}.

Definition sample_args (l : bool) (r o : option string) (s : bool) : Cli.Args :=
  {| Cli.list_sessions := l; Cli.remove_session := r;
     Cli.open_session := o; Cli.the_current_state_of_things := s |}.

Definition sample_world (editors : gset string) (args : Cli.Args) : World :=
  {| w_search_path := editors;
     w_environ := ∅;
     w_args := args;
     w_child := λ _, Exited 0%Z EmptyString;
     w_files := sample_files;
     w_log := [] |}.

(** [vsm --remove work.vim], [vsm --open work.vim] and [vsm] alone on a
    machine with [nvim]; [vsm] alone on a machine without any editor. *)
Definition remove_world : World :=
  sample_world {["nvim"]} (sample_args false (Some "work.vim") None false).

Definition open_world : World :=
  sample_world {["nvim"]} (sample_args false None (Some "work.vim") false).

Definition bare_world : World :=
  sample_world {["nvim"]} (sample_args false None None false).

Definition no_editor_world : World :=
  sample_world ∅ (sample_args false None None false).

(** Every flag at once: [vsm --list --remove work.vim --open work.vim
    --status]. *)
Definition all_flags_world : World :=
  sample_world {["nvim"]}
    (sample_args true (Some "work.vim") (Some "work.vim") true).

(** The same machine with [VIM_SESSIONS=/tmp/x]. *)
Definition override_world : World :=
  {| w_search_path := {["nvim"]};
     w_environ := {["VIM_SESSIONS" := "/tmp/x"]};
     w_args := sample_args true None None false;
     w_child := λ _, Exited 0%Z EmptyString;
     w_files := sample_files;
     w_log := [] |}.

Definition work_session : Path := "/home/user/.config/vim_sessions/work.vim".

(** Two threads calling [Config()], the first of which has taken the lock
    and built the instance but not yet stored it. *)
Definition two_calls_midway
  : ThreadSafeMeta.Sys CallArgs (gmap string PyVal) :=
  ([ThreadSafeMeta.MkThread "Config" no_args (ThreadSafeMeta.PStore 0);
    ThreadSafeMeta.new_thread "Config" no_args],
   ThreadSafeMeta.MkShared true ∅ [∅]
     [ThreadSafeMeta.Acquire; ThreadSafeMeta.Construct "Config" 0]).

(** The shared state after a first call of a class [Box] that keeps its
    argument, here 1. *)
Definition box_class : ThreadSafeMeta.Cls → Z → option Z := λ _ a, Some a.

Definition after_first_box : ThreadSafeMeta.Shared Z :=
  ThreadSafeMeta.MkShared false {["Box" := 0]} [1%Z]
    [ThreadSafeMeta.Acquire; ThreadSafeMeta.Construct "Box" 0; ThreadSafeMeta.Release].

(** ** More on [ThreadSafeMeta]: pools of any classes *)

Section MetaMore.

Import ThreadSafeMeta.

Context {Args ObjState : Type}.

(** Every thread is about to enter [__call__]. *)
Definition fresh_pool (pool : list (Thread Args)) : Prop :=
  ∀ k t, pool !! k = Some t → t_pc t = PEnter.



End MetaMore.

(** The preflight test of [main], on the answers of [is_installed]. *)
Definition editor_found (a : Answers) : bool :=
  ans_is_installed a "nvim" || ans_is_installed a "vim".

(** Two classes [A] and [B] that keep their argument, each called once,
    and the state when both calls have returned. *)
Definition two_boxes : list (ThreadSafeMeta.Thread Z) :=
  [ThreadSafeMeta.new_thread "A" 1%Z; ThreadSafeMeta.new_thread "B" 2%Z].

Definition two_boxes_done : ThreadSafeMeta.Sys Z Z :=
  ([ThreadSafeMeta.MkThread "A" 1%Z
      (ThreadSafeMeta.PDone (ThreadSafeMeta.Returned 0));
    ThreadSafeMeta.MkThread "B" 2%Z
      (ThreadSafeMeta.PDone (ThreadSafeMeta.Returned 1))],
   ThreadSafeMeta.MkShared false
     (<["B" := 1]> (<["A" := 0]> ∅)) [1%Z; 2%Z]
     [ThreadSafeMeta.Acquire; ThreadSafeMeta.Construct "A" 0;
      ThreadSafeMeta.Release;
      ThreadSafeMeta.Acquire; ThreadSafeMeta.Construct "B" 1;
      ThreadSafeMeta.Release]).

(** [Config(1)]: an argument that [Config] does not take. *)
Definition one_arg : CallArgs :=
  {| positional := [PyInt 1]; keywords := [] |}.

(** [vsm --open work.vim] on a machine with [vim] but without [nvim]. *)
Definition vim_only_world : World :=
  sample_world {["vim"]} (sample_args false None (Some "work.vim") false).

(** * Facts about the singleton machine *)

Section MetaFacts.

Import ThreadSafeMeta.

Context {Args ObjState : Type}.
Variable construct : Cls → Args → option ObjState.

Local Abbreviation tstep := (thread_step construct).
Local Abbreviation sstep := (step construct).
Local Abbreviation SInv := (Inv construct).

Lemma constructions_snoc c evs e :
  constructions c (evs ++ [e]) =
  constructions c evs + (if is_construct c e then 1 else 0).
Proof.
  unfold constructions. rewrite filter_app, length_app. f_equal.
  rewrite filter_cons, filter_nil.
  destruct (is_construct c e); case_decide; simpl; congruence.
Qed.

Lemma thread_step_cls t s t' s' :
  tstep t s = Some (t', s') → t_cls t' = t_cls t ∧ t_args t' = t_args t.
Proof.
  unfold thread_step. intros H.
  repeat (case_match; simplify_eq); done.
Qed.

Lemma thread_step_weight t s t' s' :
  tstep t s = Some (t', s') → weight (t_pc t') < weight (t_pc t).
Proof.
  unfold thread_step. intros H.
  repeat (case_match; simplify_eq); simpl; lia.
Qed.

Lemma cs_can_step t s :
  in_cs (t_pc t) = true → is_Some (tstep t s).
Proof.
  unfold thread_step. intros H.
  destruct (t_pc t); simplify_eq/=; repeat case_match; eauto.
Qed.

Lemma outside_can_step t s :
  lock s = false → in_cs (t_pc t) = false → done_pc (t_pc t) = false →
  is_Some (tstep t s).
Proof.
  unfold thread_step. intros Hl H1 H2.
  destruct (t_pc t); simplify_eq/=; rewrite ?Hl; repeat case_match; eauto.
Qed.

(** The lock discipline of one statement. *)
Lemma thread_step_lock t s t' s' :
  tstep t s = Some (t', s') →
  (in_cs (t_pc t) = false ∧ in_cs (t_pc t') = true ∧
     lock s = false ∧ lock s' = true) ∨
  (in_cs (t_pc t) = true ∧ in_cs (t_pc t') = true ∧ lock s' = lock s) ∨
  (in_cs (t_pc t) = true ∧ in_cs (t_pc t') = false ∧ lock s' = false) ∨
  (in_cs (t_pc t) = false ∧ in_cs (t_pc t') = false ∧ lock s' = lock s).
Proof.
  unfold thread_step. intros H.
  destruct (t_pc t) eqn:Hpc; repeat (case_match; simplify_eq);
    simplify_eq/=;
    first [ left; by repeat split
          | right; left; by repeat split
          | right; right; left; by repeat split
          | right; right; right; by repeat split ].
Qed.

(** [_instances] only ever gains the entry written at [PStore]. *)
Lemma thread_step_instances t s t' s' :
  tstep t s = Some (t', s') →
  instances s' = instances s ∨
  ∃ i, t_pc t = PStore i ∧ instances s' = <[t_cls t := i]> (instances s).
Proof.
  unfold thread_step. intros H.
  destruct (t_pc t) eqn:Hpc; repeat (case_match; simplify_eq);
    simplify_eq/=; eauto.
Qed.

(** Objects are only ever added. *)
Lemma thread_step_heap t s t' s' :
  tstep t s = Some (t', s') → ∃ l, heap s' = heap s ++ l.
Proof.
  unfold thread_step. intros H.
  destruct (t_pc t) eqn:Hpc; repeat (case_match; simplify_eq);
    simplify_eq/=; eauto using app_nil_r.
Qed.

Lemma lookup_after_step (pool : list (Thread Args)) k t' j u :
  <[k := t']> pool !! j = Some u →
  (j = k ∧ u = t') ∨ (j ≠ k ∧ pool !! j = Some u).
Proof.
  intros H. apply list_lookup_insert_Some in H.
  destruct H as [(-> & -> & _) | [? ?]]; auto.
Qed.

(** A thread that does not move keeps what it knows. *)
Lemma thread_ok_other pool s k t t' s' j u :
  SInv (pool, s) →
  pool !! k = Some t → tstep t s = Some (t', s') →
  pool !! j = Some u → j ≠ k →
  thread_ok construct s' u.
Proof.
  intros HI Hk Hts Hj Hne.
  pose proof (inv_threads _ _ HI j u Hj) as Hu.
  pose proof (inv_threads _ _ HI k t Hk) as Ht.
  pose proof (inv_excl _ _ HI j k u t Hj Hk) as Hex.
  simpl in *.
  destruct (thread_step_heap _ _ _ _ Hts) as [l Hl].
  destruct (thread_step_instances _ _ _ _ Hts) as [Hi | (i & Hpc & Hi)].
  - unfold thread_ok in *. rewrite Hi, Hl.
    destruct (t_pc u) as [| | | i' | | | | [ | | ]]; auto.
    destruct Hu as (? & o & ? & ?). split; [done |].
    exists o. split; [done |]. by apply lookup_app_l_Some.
  - assert (in_cs (t_pc t) = true) as Hcs by (by rewrite Hpc).
    unfold thread_ok in Ht. rewrite Hpc in Ht. destruct Ht as [Hnone _].
    unfold thread_ok in *. rewrite Hi, Hl.
    assert (is_Some (instances s !! t_cls u) → t_cls t ≠ t_cls u) as Hkey.
    { intros [x Hx] Heq. congruence. }
    destruct (t_pc u) as [| | | i' | | | | [ | | ]] eqn:Hpu; auto;
      try (exfalso; apply Hne, Hex; done).
    + rewrite lookup_insert_ne; auto.
    + rewrite lookup_insert_ne; eauto.
Qed.

(** The thread that moves learns what its statement established. *)
Lemma thread_ok_self t s t' s' :
  thread_ok construct s t → tstep t s = Some (t', s') →
  thread_ok construct s' t'.
Proof.
  unfold thread_ok, thread_step. intros Hok H.
  destruct (t_pc t) eqn:Hpc; repeat (case_match; simplify_eq);
    simplify_eq/=; eauto.
  - split; [done |]. eexists. split; [done |].
    by rewrite lookup_app_r, Nat.sub_diag.
  - rewrite lookup_insert_eq. eauto.
  - by destruct Hok.
Qed.

Lemma step_valid t s t' s' :
  thread_ok construct s t → tstep t s = Some (t', s') →
  (∀ c i, instances s !! c = Some i → built construct s c i) →
  ∀ c i, instances s' !! c = Some i → built construct s' c i.
Proof.
  intros Hok Hts Hval c i Hc.
  destruct (thread_step_heap _ _ _ _ Hts) as [l Hl].
  assert (∀ c i, built construct s c i → built construct s' c i) as Hmono.
  { intros c' i' (a & o & Ha & Ho). exists a, o. split; [done |].
    rewrite Hl. by apply lookup_app_l_Some. }
  destruct (thread_step_instances _ _ _ _ Hts) as [Hi | (j & Hpc & Hi)];
    rewrite Hi in Hc.
  - auto.
  - unfold thread_ok in Hok. rewrite Hpc in Hok.
    destruct Hok as (_ & o & Hcon & Ho).
    destruct (decide (t_cls t = c)) as [Heq | Hne].
    + subst c. rewrite lookup_insert_eq in Hc. simplify_eq.
      apply Hmono. by exists (t_args t), o.
    + rewrite lookup_insert_ne in Hc by done. auto.
Qed.

(** What one statement adds to the event log. *)
Lemma thread_step_events t s t' s' :
  tstep t s = Some (t', s') →
  (∀ c, constructions c (events s') = constructions c (events s)) ∨
  (t_pc t = PConstruct ∧ ∃ i, t_pc t' = PStore i ∧
     events s' = events s ++ [Construct (t_cls t) i]).
Proof.
  unfold thread_step. intros H.
  destruct (t_pc t) eqn:Hpc; repeat (case_match; simplify_eq);
    simplify_eq/=; eauto;
    left; intros c; rewrite constructions_snoc; simpl; lia.
Qed.

Lemma storing_other (pool : list (Thread Args)) k t t' c :
  pool !! k = Some t → (∀ i, t_pc t ≠ PStore i) →
  storing pool c → storing (<[k := t']> pool) c.
Proof.
  intros Hk Hns (j & u & i & Hj & Hc & Hpc).
  exists j, u, i. split; [| done].
  rewrite list_lookup_insert_ne; [done |].
  intros ->. simplify_eq. by eapply Hns.
Qed.

Lemma step_once pool s k t t' s' :
  SInv (pool, s) →
  pool !! k = Some t → tstep t s = Some (t', s') →
  ∀ c, constructions c (events s') ≤ 1 ∧
       (constructions c (events s') = 1 →
        is_Some (instances s' !! c) ∨ storing (<[k := t']> pool) c).
Proof.
  intros HI Hk Hts c.
  destruct (inv_once _ _ HI c) as [Hle Hone]. simpl in *.
  pose proof (inv_threads _ _ HI k t Hk) as Ht. simpl in Ht.
  assert (∀ j u i, pool !! j = Some u → t_pc u = PStore i →
                   in_cs (t_pc t) = true → j = k) as Hex.
  { intros j u i Hj Hpu Hcs.
    eapply (inv_excl _ _ HI j k u t); eauto. by rewrite Hpu. }
  destruct (thread_step_events _ _ _ _ Hts) as [Hsame | (Hpc & i & Hpc' & Hev)].
  - rewrite Hsame. split; [done |]. intros H1.
    destruct (thread_step_instances _ _ _ _ Hts) as [Hi | (i & Hpc & Hi)];
      rewrite Hi.
    + destruct (Hone H1) as [? | Hst]; [by left |].
      destruct Hst as (j & u & i & Hj & Hc & Hpu).
      destruct (decide (j = k)) as [-> | Hne].
      * simplify_eq. left. rewrite <- Hi.
        unfold thread_step in Hts. rewrite Hpu in Hts.
        simplify_eq/=. rewrite lookup_insert_eq. eauto.
      * right. exists j, u, i. by rewrite list_lookup_insert_ne.
    + left. destruct (decide (t_cls t = c)) as [Heq | Hne].
      * subst c. rewrite lookup_insert_eq. eauto.
      * rewrite lookup_insert_ne by done.
        destruct (Hone H1) as [? | Hst]; [done |].
        destruct Hst as (j & u & i' & Hj & Hc & Hpu).
        assert (j = k) by (eapply Hex; eauto; by rewrite Hpc).
        simplify_eq.
  - rewrite Hev, constructions_snoc. simpl.
    destruct (thread_step_instances _ _ _ _ Hts) as [Hi | (i' & Hpc2 & Hi)];
      [| congruence].
    rewrite Hi.
    case_bool_decide as Hc.
    + subst c.
      assert (constructions (t_cls t) (events s) = 0) as H0.
      { destruct (decide (constructions (t_cls t) (events s) = 1)) as [H1 | ?];
          [| lia].
        exfalso. unfold thread_ok in Ht. rewrite Hpc in Ht.
        destruct (Hone H1) as [[x Hx] | Hst]; [congruence |].
        destruct Hst as (j & u & i' & Hj & Hc & Hpu).
        assert (j = k) by (eapply Hex; eauto; by rewrite Hpc).
        simplify_eq. congruence. }
      rewrite H0. split; [lia |]. intros _. right.
      exists k, t', i. split; [| split; [| done]].
      * apply list_lookup_insert_eq. by eapply lookup_lt_Some.
      * by destruct (thread_step_cls _ _ _ _ Hts).
    + rewrite Nat.add_0_r. split; [done |]. intros H1.
      destruct (Hone H1) as [? | Hst]; [by left |]. right.
      eapply storing_other; eauto. intros i'. congruence.
Qed.

(** The invariant is kept by every step of every thread. *)
Lemma step_inv σ σ' : SInv σ → sstep σ σ' → SInv σ'.
Proof.
  intros HI Hstep. destruct Hstep as [pool s k t t' s' Hk Hts].
  assert (k < length pool) as Hlt by (by eapply lookup_lt_Some).
  assert ((in_cs (t_pc t) = false ∧ in_cs (t_pc t') = true ∧
             lock s = false ∧ lock s' = true) ∨
          (in_cs (t_pc t) = true ∧ in_cs (t_pc t') = true ∧
             lock s = true ∧ lock s' = true) ∨
          (in_cs (t_pc t) = true ∧ in_cs (t_pc t') = false ∧
             lock s = true ∧ lock s' = false) ∨
          (in_cs (t_pc t) = false ∧ in_cs (t_pc t') = false ∧
             lock s' = lock s)) as Hlock.
  { assert (in_cs (t_pc t) = true → lock s = true) as Hcs.
    { intros Hcs. destruct (lock s) eqn:Hl; [done |].
      pose proof (inv_free _ _ HI Hl k t Hk) as Hf. simpl in *. congruence. }
    destruct (thread_step_lock _ _ _ _ Hts) as [H | [H | [H | H]]];
      destruct_and!;
      [left | right; left | right; right; left | right; right; right];
      repeat split; auto; rewrite ?Hcs in * by done; congruence. }
  assert (∀ j u, pool !! j = Some u → j ≠ k → in_cs (t_pc u) = true →
                 in_cs (t_pc t) = false ∧ lock s = true) as Hothers.
  { intros j u Hj Hne Hcu. split.
    - destruct (in_cs (t_pc t)) eqn:Hct; [| done]. exfalso. apply Hne.
      eapply (inv_excl _ _ HI j k u t); eauto.
    - destruct (lock s) eqn:Hl; [done |].
      pose proof (inv_free _ _ HI Hl j u Hj) as Hf. simpl in *. congruence. }
  split; simpl.
  - intros Hl' j u Hj.
    apply lookup_after_step in Hj as [[-> ->] | [Hne Hj]].
    + destruct Hlock as [HL | [HL | [HL | HL]]]; destruct_and!; congruence.
    + destruct (in_cs (t_pc u)) eqn:Hcu; [| done]. exfalso.
      destruct (Hothers j u Hj Hne Hcu).
      destruct Hlock as [HL | [HL | [HL | HL]]]; destruct_and!; congruence.
  - intros Hl'.
    destruct (in_cs (t_pc t')) eqn:Hct'.
    + exists k, t'. by rewrite list_lookup_insert_eq.
    + assert (lock s = true ∧ in_cs (t_pc t) = false) as [Hl Hct].
      { destruct Hlock as [HL | [HL | [HL | HL]]]; destruct_and!;
          split; congruence. }
      destruct (inv_held _ _ HI Hl) as (j & u & Hj & Hcu). simpl in *.
      exists j, u. split; [| done].
      rewrite list_lookup_insert_ne; [done |]. intros ->. simplify_eq.
      congruence.
  - intros k1 k2 t1 t2 H1 H2 Hc1 Hc2.
    apply lookup_after_step in H1 as [[-> ->] | [Hne1 H1]];
      apply lookup_after_step in H2 as [[-> ->] | [Hne2 H2]]; auto.
    + exfalso. destruct (Hothers k2 t2 H2 Hne2 Hc2).
      destruct Hlock as [HL | [HL | [HL | HL]]]; destruct_and!; congruence.
    + exfalso. destruct (Hothers k1 t1 H1 Hne1 Hc1).
      destruct Hlock as [HL | [HL | [HL | HL]]]; destruct_and!; congruence.
    + exact (inv_excl _ _ HI k1 k2 t1 t2 H1 H2 Hc1 Hc2).
  - intros j u Hj.
    apply lookup_after_step in Hj as [[-> ->] | [Hne Hj]].
    + eapply thread_ok_self; eauto. apply (inv_threads _ _ HI k t Hk).
    + exact (thread_ok_other pool s k t t' s' j u HI Hk Hts Hj Hne).
  - eapply step_valid; eauto.
    + apply (inv_threads _ _ HI k t Hk).
    + apply (inv_valid _ _ HI).
  - eapply step_once; eauto.
Qed.

Lemma nsteps_inv n σ σ' : SInv σ → nsteps sstep n σ σ' → SInv σ'.
Proof. intros HI Hn. induction Hn; eauto using step_inv. Qed.

Lemma rtc_inv σ σ' : SInv σ → rtc sstep σ σ' → SInv σ'.
Proof. intros HI Hn. induction Hn; eauto using step_inv. Qed.

(** Before anybody has run: every thread is about to enter [__call__],
    nothing is stored and the lock is free. *)
Lemma init_inv (pool : list (Thread Args)) :
  (∀ k t, pool !! k = Some t → t_pc t = PEnter) →
  SInv (pool, init_shared).
Proof.
  intros Hall. split; simpl.
  - intros _ k t Hk. by rewrite (Hall k t Hk).
  - done.
  - intros k1 k2 t1 t2 H1 _ Hc. rewrite (Hall k1 t1 H1) in Hc. done.
  - intros k t Hk. unfold thread_ok. by rewrite (Hall k t Hk).
  - intros c i Hc. by rewrite lookup_empty in Hc.
  - intros c. unfold constructions. simpl. split; [lia | lia].
Qed.

(** No deadlock: unless every call has ended, some thread can move. *)
Lemma inv_progress σ : SInv σ → all_done σ.1 ∨ ∃ σ', sstep σ σ'.
Proof.
  destruct σ as [pool s]. intros HI. simpl.
  destruct (lock s) eqn:Hl.
  - right. destruct (inv_held _ _ HI Hl) as (k & t & Hk & Hcs). simpl in *.
    destruct (cs_can_step t s Hcs) as [[t' s'] Hts].
    eexists. econstructor; eauto.
  - destruct (decide (Forall (λ t, done_pc (t_pc t) = true) pool))
      as [Hall | Hex].
    + left. intros k t Hk.
      exact (Forall_lookup_1 _ pool k t Hall Hk).
    + right. apply not_Forall_Exists in Hex; [| apply _].
      apply Exists_exists in Hex as (t & Hin & Hnd).
      apply list_elem_of_lookup in Hin as [k Hk].
      pose proof (inv_free _ _ HI Hl k t Hk) as Hcs. simpl in *.
      destruct (outside_can_step t s Hl Hcs) as [[t' s'] Hts].
      { by destruct (done_pc (t_pc t)). }
      eexists. econstructor; eauto.
Qed.

Lemma total_weight_insert (pool : list (Thread Args)) k t t' :
  pool !! k = Some t →
  total_weight (<[k := t']> pool) + weight (t_pc t) =
  total_weight pool + weight (t_pc t').
Proof.
  unfold total_weight. revert k.
  induction pool as [| u pool IH]; intros [| k] Hk; simplify_eq/=.
  - lia.
  - specialize (IH k Hk). lia.
Qed.

(** Every step uses up one of the statements left to run. *)
Lemma step_weight σ σ' :
  sstep σ σ' → total_weight σ'.1 < total_weight σ.1.
Proof.
  intros [pool s k t t' s' Hk Hts]. simpl.
  pose proof (total_weight_insert pool k t t' Hk).
  pose proof (thread_step_weight _ _ _ _ Hts). lia.
Qed.

Lemma nsteps_weight n σ σ' :
  nsteps sstep n σ σ' → n + total_weight σ'.1 ≤ total_weight σ.1.
Proof.
  induction 1 as [| n x y z Hxy _ IH]; [lia |].
  apply step_weight in Hxy. lia.
Qed.

(** An entry of [_instances], once written, stays, and so does the
    object it names. *)
Lemma step_stable σ σ' c i :
  SInv σ → sstep σ σ' →
  instances σ.2 !! c = Some i →
  instances σ'.2 !! c = Some i ∧ heap σ'.2 !! i = heap σ.2 !! i.
Proof.
  intros HI Hst. destruct Hst as [pool s k t t' s' Hk Hts].
  intros Hc. simpl in *.
  pose proof (inv_threads _ _ HI k t Hk) as Ht.
  destruct (inv_valid _ _ HI c i Hc) as (a & o & _ & Hlt).
  apply lookup_lt_Some in Hlt. simpl in *.
  destruct (thread_step_heap _ _ _ _ Hts) as [l Hl]. split.
  - destruct (thread_step_instances _ _ _ _ Hts) as [Hi | (j & Hpc & Hi)];
      rewrite Hi; [done |].
    unfold thread_ok in Ht. rewrite Hpc in Ht. destruct Ht as [Hnone _].
    rewrite lookup_insert_ne; [done |]. congruence.
  - rewrite Hl. by apply lookup_app_l.
Qed.

Lemma rtc_stable σ σ' c i :
  SInv σ → rtc sstep σ σ' →
  instances σ.2 !! c = Some i →
  instances σ'.2 !! c = Some i ∧ heap σ'.2 !! i = heap σ.2 !! i.
Proof.
  intros HI Hr. revert HI. induction Hr as [| x y z Hxy _ IH]; [done |].
  intros HI Hc.
  destruct (step_stable x y c i HI Hxy Hc) as [Hc' Hh].
  destruct (IH (step_inv _ _ HI Hxy) Hc') as [? ?].
  split; [done | congruence].
Qed.

(** Class and arguments of a call are fixed while it runs. *)
Lemma step_calls (P : Cls → Args → Prop) σ σ' :
  sstep σ σ' →
  (∀ k t, σ.1 !! k = Some t → P (t_cls t) (t_args t)) →
  (∀ k t, σ'.1 !! k = Some t → P (t_cls t) (t_args t)).
Proof.
  intros Hst. destruct Hst as [pool s k t t' s' Hk Hts].
  intros HP j u Hj. simpl in *.
  apply lookup_after_step in Hj as [[-> ->] | [Hne Hj]]; [| eauto].
  destruct (thread_step_cls _ _ _ _ Hts) as [-> ->]. eauto.
Qed.

Lemma nsteps_calls (P : Cls → Args → Prop) n σ σ' :
  nsteps sstep n σ σ' →
  (∀ k t, σ.1 !! k = Some t → P (t_cls t) (t_args t)) →
  (∀ k t, σ'.1 !! k = Some t → P (t_cls t) (t_args t)).
Proof.
  induction 1 as [| n x y z Hxy _ IH]; [done |].
  intros HP. apply IH. by apply (step_calls P x y).
Qed.

(** *** One call at a time *)

Lemma call_existing s c a i :
  lock s = false → instances s !! c = Some i →
  call construct c a s = Some (Returned i, locked_lookup s).
Proof.
  intros Hl Hi. unfold call, locked_lookup.
  cbn. unfold thread_step. cbn.
  repeat (first [rewrite Hl | rewrite Hi]; cbn).
  done.
Qed.

Lemma call_fresh s c a o :
  lock s = false → instances s !! c = None → construct c a = Some o →
  call construct c a s =
  Some (Returned (length (heap s)),
        {| lock := false;
           instances := <[c := length (heap s)]> (instances s);
           heap := heap s ++ [o];
           events := ((events s ++ [Acquire]) ++
                      [Construct c (length (heap s))]) ++ [Release] |}).
Proof.
  intros Hl Hi Ho. unfold call, locked_lookup.
  cbn. unfold thread_step. cbn.
  repeat (first [rewrite Hl | rewrite Hi | rewrite Ho | rewrite lookup_insert_eq]; cbn).
  done.
Qed.

Lemma call_raises s c a :
  lock s = false → instances s !! c = None → construct c a = None →
  call construct c a s = Some (RaisedInit, locked_lookup s).
Proof.
  intros Hl Hi Ho. unfold call, locked_lookup.
  cbn. unfold thread_step. cbn.
  repeat (first [rewrite Hl | rewrite Hi | rewrite Ho]; cbn).
  done.
Qed.

Lemma call_blocked s c a :
  lock s = true → call construct c a s = None.
Proof.
  intros Hl. unfold call. simpl. unfold thread_step. simpl.
  by rewrite Hl.
Qed.

(** C10.  Arguments of a later call are ignored.  For every class of the
    metaclass and any two argument lists [a] and [b]: when the call with
    [a] returns an instance, the call with [b] made after it returns the
    same instance and leaves the objects as they were.  If the call with
    [a] was the first construction, the state of the instance is the one
    built from [a]; if an instance was there before, that one is returned
    and nothing was built. *)
Theorem singleton_ignores_later_arguments s c a b i s1 :
  lock s = false →
  call construct c a s = Some (Returned i, s1) →
  call construct c b s1 = Some (Returned i, locked_lookup s1) ∧
  heap (locked_lookup s1) = heap s1 ∧
  (instances s !! c = None →
   heap (locked_lookup s1) !! i = construct c a) ∧
  (∀ j, instances s !! c = Some j →
        i = j ∧ heap (locked_lookup s1) = heap s).
Proof.
  intros Hl Hcall.
  destruct (instances s !! c) as [j |] eqn:Hi.
  - rewrite (call_existing s c a j Hl Hi) in Hcall. simplify_eq.
    split; [| split; [done | split; [done |]]].
    + by apply call_existing.
    + intros j' ?. by simplify_eq.
  - destruct (construct c a) as [o |] eqn:Ho.
    + rewrite (call_fresh s c a o Hl Hi Ho) in Hcall. simplify_eq.
      split; [| split; [done | split; [| done]]].
      * apply call_existing; [done |]. simpl. apply lookup_insert_eq.
      * intros _. simpl. by rewrite lookup_app_r, Nat.sub_diag.
    + rewrite (call_raises s c a Hl Hi Ho) in Hcall. simplify_eq.
Qed.

End MetaFacts.

Section ConfigFacts.

Import ThreadSafeMeta.

Lemma package_classes_Config a o :
  package_classes "Config" a = Some o → o = ∅.
Proof.
  unfold package_classes, construct_Config. simpl.
  repeat case_match; by intros [= <-].
Qed.

Lemma total_weight_config_calls m : total_weight (config_calls m) = 6 * m.
Proof.
  unfold total_weight, config_calls.
  induction m as [| m IH]; simpl; [done |]. rewrite IH. lia.
Qed.

Lemma config_calls_inv m :
  Inv package_classes (config_calls m, init_shared).
Proof.
  apply init_inv. intros k t Hk.
  apply lookup_replicate in Hk as [-> _]. done.
Qed.

(** C7.  However the calls of [Config()] made by [m] threads are
    interleaved, in every state that can be reached: all calls that have
    ended returned one and the same instance, the one kept in
    [_instances]; at most one [Config] object was ever constructed; the
    entry of [_instances], once there, is never replaced and the object
    it names stays the empty instance it was built as; and the calls do
    end: some thread can always move until all have returned, within six
    steps each. *)
Theorem config_constructed_once m n (σ : Sys CallArgs (gmap string PyVal)) :
  nsteps (step package_classes) n (config_calls m, init_shared) σ →
  (∀ k1 k2 t1 t2 r1 r2,
     σ.1 !! k1 = Some t1 → σ.1 !! k2 = Some t2 →
     t_pc t1 = PDone r1 → t_pc t2 = PDone r2 →
     ∃ i, r1 = Returned i ∧ r2 = Returned i ∧
          instances σ.2 !! "Config" = Some i) ∧
  constructions "Config" (events σ.2) ≤ 1 ∧
  (∀ i σ', instances σ.2 !! "Config" = Some i →
           rtc (step package_classes) σ σ' →
           instances σ'.2 !! "Config" = Some i ∧
           heap σ'.2 !! i = Some ∅) ∧
  (all_done σ.1 ∨ ∃ σ', step package_classes σ σ') ∧
  n ≤ 6 * m.
Proof.
  intros Hn.
  pose proof (nsteps_inv _ _ _ _ (config_calls_inv m) Hn) as HI.
  assert (∀ k t, σ.1 !! k = Some t →
                 t_cls t = "Config" ∧ t_args t = no_args) as Hcls.
  { apply (nsteps_calls package_classes
             (λ c a, c = "Config" ∧ a = no_args) _ _ _ Hn).
    simpl. intros k t Hk. apply lookup_replicate in Hk as [-> _]. done. }
  assert (∀ k t r, σ.1 !! k = Some t → t_pc t = PDone r →
                   ∃ i, r = Returned i ∧
                        instances σ.2 !! "Config" = Some i) as Hret.
  { intros k t r Hk Hpc.
    pose proof (inv_threads _ _ HI k t Hk) as Hok.
    destruct (Hcls k t Hk) as [Hc Ha].
    unfold thread_ok in Hok. rewrite Hpc, Hc, Ha in Hok.
    destruct r as [i | |]; [eauto | done | done]. }
  split; [| split; [| split; [| split]]].
  - intros k1 k2 t1 t2 r1 r2 H1 H2 Hp1 Hp2.
    destruct (Hret k1 t1 r1 H1 Hp1) as (i1 & -> & Hi1).
    destruct (Hret k2 t2 r2 H2 Hp2) as (i2 & -> & Hi2).
    exists i1. by simplify_eq.
  - apply (inv_once _ _ HI).
  - intros i σ' Hi Hr.
    destruct (rtc_stable _ _ _ _ _ HI Hr Hi) as [Hi' Hh].
    split; [done |]. rewrite Hh.
    destruct (inv_valid _ _ HI _ _ Hi) as (a & o & Ho & Hlook).
    apply package_classes_Config in Ho. by subst o.
  - by apply inv_progress.
  - pose proof (nsteps_weight _ _ _ _ Hn) as Hw. simpl in Hw.
    rewrite total_weight_config_calls in Hw. lia.
Qed.

End ConfigFacts.

Section SingletonExamples.

Import ThreadSafeMeta.

(** C8 at the input "a second call of [Config()] after the first has
    returned": the second call takes the lock again (the log shows a
    second [Acquire] and [Release] and no second construction), and with
    the instance in place but the lock held by somebody else the call
    does not return. *)
Theorem second_call_takes_lock :
  (λ '(rs, s), (rs, events s)) <$>
    call_seq package_classes
      [("Config", no_args); ("Config", no_args)] init_shared =
  Some ([Returned 0; Returned 0],
        [Acquire; Construct "Config" 0; Release; Acquire; Release]) ∧
  call package_classes "Config" no_args
    (MkShared true {["Config" := 0]} [∅]
       [Acquire; Construct "Config" 0; Release; Acquire]) = None.
Proof. split; reflexivity. Qed.

Lemma singleton_ignores_later_arguments_witness :
  (lock (init_shared (ObjState := Z)) = false ∧
   call box_class "Box" 1%Z init_shared =
     Some (Returned 0, after_first_box)) ∧
  call box_class "Box" 2%Z after_first_box =
    Some (Returned 0, locked_lookup after_first_box) ∧
  heap (locked_lookup after_first_box) = heap after_first_box ∧
  (instances (init_shared (ObjState := Z)) !! "Box" = None →
   heap (locked_lookup after_first_box) !! 0 = box_class "Box" 1%Z) ∧
  (∀ j, instances (init_shared (ObjState := Z)) !! "Box" = Some j →
        0 = j ∧ heap (locked_lookup after_first_box) = heap init_shared).
Proof.
  assert (call box_class "Box" 1%Z init_shared =
          Some (Returned 0, after_first_box)) as Hfirst by reflexivity.
  split; [split; [reflexivity | exact Hfirst] |].
  exact (singleton_ignores_later_arguments box_class init_shared
           "Box" 1%Z 2%Z 0 after_first_box eq_refl Hfirst).
Defined.

Lemma two_calls_midway_reached :
  nsteps (step package_classes) 3 (config_calls 2, init_shared)
    two_calls_midway.
Proof.
  eapply nsteps_l.
  { eapply (step_thread package_classes _ _ 0); reflexivity. }
  eapply nsteps_l.
  { eapply (step_thread package_classes _ _ 0); reflexivity. }
  eapply nsteps_l.
  { eapply (step_thread package_classes _ _ 0); reflexivity. }
  apply nsteps_O.
Defined.

Lemma config_constructed_once_witness :
  nsteps (step package_classes) 3 (config_calls 2, init_shared)
    two_calls_midway ∧
  constructions "Config" (events two_calls_midway.2) ≤ 1 ∧
  (all_done two_calls_midway.1 ∨
   ∃ σ', step package_classes two_calls_midway σ') ∧
  3 ≤ 6 * 2.
Proof.
  split; [exact two_calls_midway_reached |].
  pose proof (config_constructed_once 2 3 two_calls_midway
                two_calls_midway_reached) as (_ & H2 & _ & H4 & H5).
  exact (conj H2 (conj H4 H5)).
Defined.

End SingletonExamples.

(** * Facts about the entry point *)

Section MainFacts.

(** Case analysis on everything a run of [main] branches on. *)
Ltac run_main H :=
  unfold Main.main in H; cbn in H;
  repeat match type of H with
         | context [negb ?x] =>
             let E := fresh "E" in destruct x eqn:E; cbn in H
         | context [if ?x then _ else _] =>
             let E := fresh "E" in destruct x eqn:E; cbn in H
         | context [match ?x with Some _ => _ | None => _ end] =>
             let E := fresh "E" in destruct x eqn:E; cbn in H
         | context [match ?x with Ok _ => _ | Err _ => _ end] =>
             let E := fresh "E" in destruct x eqn:E; cbn in H
         end;
  injection H as <- <-.

Ltac find_event := simpl; repeat first [left; reflexivity | right].

(** C5.  With neither [nvim] nor [vim] installed, [main] logs the error
    and returns 1, whatever the command line holds: after the two
    look-ups nothing else is called, neither the argument parser nor the
    session manager nor anything on files. *)
Theorem preflight_fails_fast ie a :
  ans_is_installed a "nvim" = false →
  ans_is_installed a "vim" = false →
  exec (Main.main ie) a =
  ([EvNewShellManager;
    EvIsInstalled "nvim" false;
    EvIsInstalled "vim" false;
    EvLog LError (MsgText "No variant of vim was found on your system")],
   Returns 1%Z).
Proof.
  intros Hn Hv. unfold Main.main. cbn. rewrite Hn. cbn. rewrite Hv.
  reflexivity.
Qed.

(** C3.  In a run where [open_session] is called on [X]: [X] is the
    value of [--open]; if it resolved to [p], the command [nvim -S p] is
    executed, and [main] returns 0 when the execution succeeded and
    otherwise logs the failure as an error and returns 1; if it did not
    resolve, the error is logged, nothing is executed and [main] returns
    1.  The execution succeeds exactly when the child exits with status
    0 (from the specification of [ShellManager.execute]). *)
Theorem open_runs_editor ie a X r :
  In (EvOpenSession X r) (exec (Main.main ie) a).1 →
  truthy (Cli.open_session (ans_args a)) = Some X ∧
  match r with
  | Ok p =>
      In (EvExecute ("nvim -S " +:+ p) (ans_execute a ("nvim -S " +:+ p)))
         (exec (Main.main ie) a).1 ∧
      match ans_execute a ("nvim -S " +:+ p) with
      | Ok _ => (exec (Main.main ie) a).2 = Returns 0%Z
      | Err fail =>
          In (EvLog LError (MsgExecution fail)) (exec (Main.main ie) a).1 ∧
          (exec (Main.main ie) a).2 = Returns 1%Z
      end
  | Err e =>
      In (EvLog LError (MsgSession e)) (exec (Main.main ie) a).1 ∧
      (∀ cmd r', ¬ In (EvExecute cmd r') (exec (Main.main ie) a).1) ∧
      (exec (Main.main ie) a).2 = Returns 1%Z
  end ∧
  (∀ w cmd, ShellManager.execute cmd w = Ok tt ↔
            ∃ stderr, w_child w cmd = Exited 0%Z stderr).
Proof.
  intros Hin.
  assert (∀ w cmd, ShellManager.execute cmd w = Ok tt ↔
                   ∃ stderr, w_child w cmd = Exited 0%Z stderr) as Hexe.
  { intros w cmd. unfold ShellManager.execute.
    destruct (w_child w cmd) as [status stderr | msg];
      [case_bool_decide; subst |]; split;
      try discriminate; try (intros [? ?]; congruence); eauto. }
  destruct (exec (Main.main ie) a) as [tr out] eqn:Hexec.
  run_main Hexec; simpl in Hin |- *.
  all: try (intuition discriminate).
  all: repeat (destruct Hin as [? | Hin]; try discriminate).
  all: try done.
  all: simplify_eq; simpl.
  all: repeat match goal with
              | E : ?x = _ |- context [match ?x with _ => _ end] => rewrite E
              end.
  all: (split; [done | split; [| exact Hexe]]).
  all: repeat split; try done; try find_event.
  all: intros c r' Hx;
    repeat (destruct Hx as [Hx | Hx]; try discriminate); done.
Qed.

Ltac run_main_goal :=
  cbn;
  repeat match goal with
         | |- context [negb ?x] =>
             let E := fresh "E" in destruct x eqn:E; cbn
         | |- context [if ?x then _ else _] =>
             let E := fresh "E" in destruct x eqn:E; cbn
         | |- context [match ?x with Some _ => _ | None => _ end] =>
             let E := fresh "E" in destruct x eqn:E; cbn
         | |- context [match ?x with Ok _ => _ | Err _ => _ end] =>
             let E := fresh "E" in destruct x eqn:E; cbn
         end.

(** [main] and the dispatch of the specification make the same calls and
    end the same way. *)
Lemma main_by_priority_exec ie a :
  exec (Main.main ie) a = exec (main_by_priority ie) a.
Proof.
  unfold Main.main, main_by_priority, select_command, matching_flags.
  run_main_goal; reflexivity.
Qed.

(** C4.  The if/elif chain of [main] is the dispatch by priority: after
    the preflight, [main] runs the branch of the first flag that matches
    in the order list, remove, open, status, and the fallback when none
    does; and every call of a run that belongs to a branch belongs to that
    one branch, so no two branches run. *)
Theorem dispatch_by_priority ie a :
  exec (Main.main ie) a = exec (main_by_priority ie) a ∧
  ∀ e b,
    In e (exec (Main.main ie) a).1 →
    branch_of_event ie e = Some b →
    b = branch_of_command (select_command (ans_args a)).
Proof.
  split; [apply main_by_priority_exec |].
  intros e b Hin Hb.
  unfold select_command, matching_flags.
  destruct (exec (Main.main ie) a) as [tr out] eqn:Hexec.
  run_main Hexec; simpl in Hin.
  all: repeat (destruct Hin as [<- | Hin]; [try discriminate |]);
    try done.
  all: cbn in Hb |- *; try case_bool_decide; simplify_eq; try done.
Qed.

(** C6, as amended.  Invoked without any flag, [main] always returns 1
    and makes no call that touches files or starts a process; when [nvim]
    or [vim] is installed it logs the error that points to [--help], and
    when neither is, the run is the failed preflight. *)
Theorem no_flags_usage_error ie a :
  no_flags (ans_args a) →
  (exec (Main.main ie) a).2 = Returns 1%Z ∧
  Forall (λ e, touches_filesystem e = false) (exec (Main.main ie) a).1 ∧
  (ans_is_installed a "nvim" = true ∨ ans_is_installed a "vim" = true →
   In (EvLog LError
         (MsgText ("No arguments give, please use `" +:+
                   import_package ie +:+
                   " --help` for usage information")))
      (exec (Main.main ie) a).1) ∧
  (ans_is_installed a "nvim" = false ∧ ans_is_installed a "vim" = false →
   (exec (Main.main ie) a).1 =
   [EvNewShellManager; EvIsInstalled "nvim" false;
    EvIsInstalled "vim" false;
    EvLog LError (MsgText Main.no_editor_message)]).
Proof.
  intros (Hl & Hr & Ho & Hs).
  destruct (exec (Main.main ie) a) as [tr out] eqn:Hexec.
  run_main Hexec; simplify_eq; simpl.
  all: split; [done |]; split; [repeat constructor |].
  all: split; [intros [? | ?]; try discriminate; find_event |].
  all: intros [? ?]; by simplify_eq.
Qed.

(** In a run where [remove_session] answered [Ok p], [main] next logs the
    warning and then calls [unlink] on [p]. *)
Lemma remove_then_unlink ie a name p :
  In (EvRemoveSession name (Ok p)) (exec (Main.main ie) a).1 →
  ∃ pre post,
    (exec (Main.main ie) a).1 =
    pre ++ [EvRemoveSession name (Ok p);
            EvLog LWarn (MsgText ("Removing session -> " +:+ p));
            EvUnlink p (ans_unlink a p)] ++ post.
Proof.
  intros Hin.
  destruct (exec (Main.main ie) a) as [tr out] eqn:Hexec.
  run_main Hexec; simpl in Hin.
  all: repeat (destruct Hin as [Hin | Hin]; try discriminate); try done.
  all: simplify_eq.
  all: match goal with
       | |- ∃ pre post, ?l = _ =>
           match l with
           | context [EvIsInstalled "vim"] =>
               exists [EvNewShellManager; EvIsInstalled "nvim" false;
                       EvIsInstalled "vim" true;
                       EvNewCli (ans_args a); EvNewSessionManager]
           | _ =>
               exists [EvNewShellManager; EvIsInstalled "nvim" true;
                       EvNewCli (ans_args a); EvNewSessionManager]
           end
       end.
  all: eexists; simpl; rewrite ?E; repeat f_equal; try done.
Qed.

(** Run in a world, [main] makes the calls and ends the way [exec] says for
    the answers the collaborators give in that world at the start: nothing
    [main] calls after a log line or after [unlink] reads what they
    changed. *)
Lemma interp_main_exec ie w :
  (interp ie (Main.main ie) w).1 = exec (Main.main ie) (answers_of ie w).
Proof.
  unfold Main.main. cbn.
  repeat match goal with
         | |- _ => progress unfold VimSessionManager.remove_session,
                     VimSessionManager.open_session, fs_unlink,
                     ShellManager.execute; cbn
         | |- context [match ?x with Exited _ _ => _ | SpawnFailed _ => _ end] =>
             let E := fresh "E" in destruct x eqn:E; cbn
         | |- context [negb ?x] =>
             let E := fresh "E" in destruct x eqn:E; cbn
         | |- context [if ?x then _ else _] =>
             let E := fresh "E" in destruct x eqn:E; cbn
         | |- context [match ?x with Some _ => _ | None => _ end] =>
             let E := fresh "E" in destruct x eqn:E; cbn
         | |- context [match ?x with Ok _ => _ | Err _ => _ end] =>
             let E := fresh "E" in destruct x eqn:E; cbn
         | |- context [match ?x with File => _ | Dir => _ end] =>
             let E := fresh "E" in destruct x eqn:E; cbn
         end; reflexivity.
Qed.

(** C9 at the input [vsm --remove work.vim], with the session file in
    place and [nvim] installed: [main] resolves the session, logs the
    warning and unlinks the file at once.  No call asks the user
    anything, and the file is gone when [main] returns 0. *)
Theorem remove_unlinks_without_confirmation :
  let w := sample_world {["nvim"]}
             (sample_args false (Some "work.vim") None false) in
  let p := "/home/user/.config/vim_sessions/work.vim" in
  let r := interp sample_env (Main.main sample_env) w in
  w_files w !! p = Some File ∧
  r.1.1 =
    [EvNewShellManager;
     EvIsInstalled "nvim" true;
     EvNewCli (w_args w);
     EvNewSessionManager;
     EvRemoveSession "work.vim" (Ok p);
     EvLog LWarn (MsgText ("Removing session -> " +:+ p));
     EvUnlink p None;
     EvLog LInfo (MsgText "Done..")] ∧
  r.1.2 = Returns 0%Z ∧
  w_files r.2 !! p = None.
Proof. vm_compute. repeat split. Qed.

End MainFacts.

(** * Facts about the session manager of the specification *)

Section SessionFacts.

Lemma append_assoc (a b c : string) : (a +:+ b) +:+ c = a +:+ (b +:+ c).
Proof.
  induction a as [| x a IH]; [reflexivity |].
  change (String x ((a +:+ b) +:+ c) = String x (a +:+ b +:+ c)).
  by f_equal.
Qed.

Lemma remove_session_result ie name w r w' :
  VimSessionManager.remove_session ie name w = (r, w') →
  w' = w ∧
  match r with
  | Ok p =>
      p = VimSessionManager.resolve_sessions_directory ie w +/+ name ∧
      is_Some (w_files w !! p)
  | Err _ => True
  end.
Proof.
  unfold VimSessionManager.remove_session, path_exists. intros H.
  case_bool_decide; simplify_eq; auto.
Qed.

(** C2.  The variable is named [VIM_SESSIONS]; the sessions directory is
    its value when it is set and not empty, and [<home>/.config/vim_sessions],
    the default of [Config], when it is unset or empty. *)
Theorem sessions_directory_override ie w :
  Config.vsm_env_var = "VIM_SESSIONS" ∧
  Config.default_sessions_directory ie =
    home_dir ie +:+ "/.config/vim_sessions" ∧
  (∀ v, w_environ w !! "VIM_SESSIONS" = Some v → v ≠ EmptyString →
        VimSessionManager.resolve_sessions_directory ie w = v) ∧
  (w_environ w !! "VIM_SESSIONS" = None ∨
   w_environ w !! "VIM_SESSIONS" = Some EmptyString →
   VimSessionManager.resolve_sessions_directory ie w =
     home_dir ie +:+ "/.config/vim_sessions").
Proof.
  assert (Config.default_sessions_directory ie =
          home_dir ie +:+ "/.config/vim_sessions") as Hdef.
  { unfold Config.default_sessions_directory, path_div.
    change (is_absolute ".config") with false.
    change (is_absolute "vim_sessions") with false.
    cbv iota. by rewrite append_assoc. }
  split; [done |]. split; [done |].
  unfold VimSessionManager.resolve_sessions_directory, Config.vsm_env_var.
  split.
  - intros v Hv Hne. rewrite Hv. by case_bool_decide.
  - intros [Hv | Hv]; rewrite Hv; [done |]. by case_bool_decide.
Qed.

(** C1.  When [remove_session] resolves [name] to [p], it hands back the
    world it was given: the file [p] is still on disk.  In a run of
    [main] in which [remove_session] answered [Ok p], the calls that
    follow are the warning and then [unlink] on [p], made by [main]; and
    it is that [unlink] that takes the file away. *)
Theorem remove_session_does_not_delete ie w name p w' a :
  VimSessionManager.remove_session ie name w = (Ok p, w') →
  In (EvRemoveSession name (Ok p)) (exec (Main.main ie) a).1 →
  w' = w ∧
  p = VimSessionManager.resolve_sessions_directory ie w +/+ name ∧
  is_Some (w_files w' !! p) ∧
  (∃ pre post,
     (exec (Main.main ie) a).1 =
     pre ++ [EvRemoveSession name (Ok p);
             EvLog LWarn (MsgText ("Removing session -> " +:+ p));
             EvUnlink p (ans_unlink a p)] ++ post) ∧
  (w_files w' !! p = Some File →
   (fs_unlink p w').1 = None ∧ w_files (fs_unlink p w').2 !! p = None).
Proof.
  intros Hrm Hin.
  destruct (remove_session_result _ _ _ _ _ Hrm) as (-> & Hp & Hex).
  split; [done |]. split; [done |]. split; [done |]. split.
  - by apply remove_then_unlink.
  - intros Hf. unfold fs_unlink. rewrite Hf. simpl.
    split; [done |]. apply lookup_delete_eq.
Qed.

End SessionFacts.

(** * The sample installation, run *)

Section Samples.

Ltac find_event := simpl; repeat first [left; reflexivity | right].

Lemma preflight_fails_fast_witness :
  (ans_is_installed (answers_of sample_env no_editor_world) "nvim" = false ∧
   ans_is_installed (answers_of sample_env no_editor_world) "vim" = false) ∧
  exec (Main.main sample_env) (answers_of sample_env no_editor_world) =
  ([EvNewShellManager;
    EvIsInstalled "nvim" false;
    EvIsInstalled "vim" false;
    EvLog LError (MsgText "No variant of vim was found on your system")],
   Returns 1%Z).
Proof.
  split; [split; reflexivity |].
  exact (preflight_fails_fast sample_env
           (answers_of sample_env no_editor_world) eq_refl eq_refl).
Defined.

Lemma open_runs_editor_witness :
  In (EvOpenSession "work.vim" (Ok work_session))
     (exec (Main.main sample_env) (answers_of sample_env open_world)).1 ∧
  In (EvExecute ("nvim -S " +:+ work_session) (Ok tt))
     (exec (Main.main sample_env) (answers_of sample_env open_world)).1 ∧
  (exec (Main.main sample_env) (answers_of sample_env open_world)).2 =
    Returns 0%Z.
Proof.
  assert (In (EvOpenSession "work.vim" (Ok work_session))
            (exec (Main.main sample_env)
               (answers_of sample_env open_world)).1) as Hin.
  { vm_compute. find_event. }
  split; [exact Hin |].
  destruct (open_runs_editor sample_env (answers_of sample_env open_world)
              "work.vim" (Ok work_session) Hin) as (_ & (H1 & H2) & _).
  split; [exact H1 | exact H2].
Defined.

Lemma no_flags_usage_error_witness :
  no_flags (ans_args (answers_of sample_env bare_world)) ∧
  (exec (Main.main sample_env) (answers_of sample_env bare_world)).2 =
    Returns 1%Z ∧
  Forall (λ e, touches_filesystem e = false)
    (exec (Main.main sample_env) (answers_of sample_env bare_world)).1 ∧
  In (EvLog LError
        (MsgText
           "No arguments give, please use `vsm --help` for usage information"))
     (exec (Main.main sample_env) (answers_of sample_env bare_world)).1.
Proof.
  assert (no_flags (ans_args (answers_of sample_env bare_world))) as Hnf.
  { repeat split. }
  split; [exact Hnf |].
  destruct (no_flags_usage_error sample_env
              (answers_of sample_env bare_world) Hnf) as (H1 & H2 & H3 & _).
  split; [exact H1 |]. split; [exact H2 |].
  apply H3. left. reflexivity.
Defined.

(** C6 as it stands fails: invoked without any flag on a machine with
    neither [nvim] nor [vim], [main] stops at the preflight and the error
    that points to [--help] is not logged. *)
Lemma no_flags_without_editor_logs_no_hint :
  ¬ (∀ ie a,
       no_flags (ans_args a) →
       (exec (Main.main ie) a).2 = Returns 1%Z ∧
       In (EvLog LError (MsgText (Main.no_arguments_message ie)))
          (exec (Main.main ie) a).1 ∧
       Forall (λ e, touches_filesystem e = false) (exec (Main.main ie) a).1).
Proof.
  intros H.
  destruct (H sample_env (answers_of sample_env no_editor_world))
    as (_ & Hin & _); [repeat split |].
  vm_compute in Hin.
  repeat (destruct Hin as [Hin | Hin]; try discriminate). done.
Qed.

Lemma remove_session_does_not_delete_witness :
  VimSessionManager.remove_session sample_env "work.vim" remove_world =
    (Ok work_session, remove_world) ∧
  In (EvRemoveSession "work.vim" (Ok work_session))
     (exec (Main.main sample_env) (answers_of sample_env remove_world)).1 ∧
  is_Some (w_files remove_world !! work_session) ∧
  (∃ pre post,
     (exec (Main.main sample_env) (answers_of sample_env remove_world)).1 =
     pre ++ [EvRemoveSession "work.vim" (Ok work_session);
             EvLog LWarn (MsgText ("Removing session -> " +:+ work_session));
             EvUnlink work_session
               (ans_unlink (answers_of sample_env remove_world) work_session)]
         ++ post) ∧
  (w_files remove_world !! work_session = Some File →
   (fs_unlink work_session remove_world).1 = None ∧
   w_files (fs_unlink work_session remove_world).2 !! work_session = None).
Proof.
  assert (VimSessionManager.remove_session sample_env "work.vim" remove_world
          = (Ok work_session, remove_world)) as Hrm.
  { vm_compute. reflexivity. }
  assert (In (EvRemoveSession "work.vim" (Ok work_session))
            (exec (Main.main sample_env)
               (answers_of sample_env remove_world)).1) as Hin.
  { vm_compute. find_event. }
  split; [exact Hrm |]. split; [exact Hin |].
  destruct (remove_session_does_not_delete sample_env remove_world
              "work.vim" work_session remove_world
              (answers_of sample_env remove_world) Hrm Hin)
    as (_ & _ & H3 & H4 & H5).
  exact (conj H3 (conj H4 H5)).
Defined.

Lemma sessions_directory_override_witness :
  VimSessionManager.resolve_sessions_directory sample_env override_world =
    "/tmp/x" ∧
  VimSessionManager.resolve_sessions_directory sample_env bare_world =
    "/home/user/.config/vim_sessions".
Proof.
  split.
  - destruct (sessions_directory_override sample_env override_world)
      as (_ & _ & H & _).
    apply H; [reflexivity | discriminate].
  - destruct (sessions_directory_override sample_env bare_world)
      as (_ & _ & _ & H).
    apply H. left. reflexivity.
Defined.

Lemma dispatch_by_priority_witness :
  exec (Main.main sample_env) (answers_of sample_env all_flags_world) =
    exec (main_by_priority sample_env) (answers_of sample_env all_flags_world) ∧
  In (EvListSessions [work_session])
     (exec (Main.main sample_env) (answers_of sample_env all_flags_world)).1 ∧
  BList =
    branch_of_command
      (select_command (ans_args (answers_of sample_env all_flags_world))).
Proof.
  destruct (dispatch_by_priority sample_env
              (answers_of sample_env all_flags_world)) as [H1 H2].
  assert (In (EvListSessions [work_session])
            (exec (Main.main sample_env)
               (answers_of sample_env all_flags_world)).1) as Hin.
  { vm_compute. find_event. }
  split; [exact H1 |]. split; [exact Hin |].
  exact (H2 _ BList Hin eq_refl).
Defined.

End Samples.


(** * More facts about the singleton machine *)

Section MetaExtras.

Import ThreadSafeMeta.

Context {Args ObjState : Type}.
Variable construct : Cls → Args → option ObjState.

Lemma reachable_inv (pool : list (Thread Args)) n σ :
  fresh_pool pool →
  nsteps (step construct) n (pool, init_shared) σ →
  Inv construct σ.
Proof.
  intros Hfresh Hn. eapply nsteps_inv; [| exact Hn]. by apply init_inv.
Qed.

(** X1.  However the calls are interleaved, at most one thread is inside
    the [with] block, and the lock is held exactly when one is. *)
Theorem mutual_exclusion (pool : list (Thread Args)) n σ :
  fresh_pool pool →
  nsteps (step construct) n (pool, init_shared) σ →
  (∀ k1 k2 t1 t2,
     σ.1 !! k1 = Some t1 → σ.1 !! k2 = Some t2 →
     in_cs (t_pc t1) = true → in_cs (t_pc t2) = true → k1 = k2) ∧
  (lock σ.2 = true ↔ ∃ k t, σ.1 !! k = Some t ∧ in_cs (t_pc t) = true).
Proof.
  intros Hfresh Hn. pose proof (reachable_inv pool n σ Hfresh Hn) as HI.
  split; [exact (inv_excl _ _ HI) |]. split.
  - exact (inv_held _ _ HI).
  - intros (k & t & Hk & Hcs). destruct (lock σ.2) eqn:Hl; [done |].
    pose proof (inv_free _ _ HI Hl k t Hk). congruence.
Qed.

(** X2.  For pools that call any classes with any arguments: the calls of
    one class that have returned all returned the same instance, the one
    kept for the class, and at most one object of each class was ever
    built. *)
Theorem one_instance_per_class (pool : list (Thread Args)) n σ :
  fresh_pool pool →
  nsteps (step construct) n (pool, init_shared) σ →
  (∀ k1 k2 t1 t2 i1 i2,
     σ.1 !! k1 = Some t1 → σ.1 !! k2 = Some t2 →
     t_cls t1 = t_cls t2 →
     t_pc t1 = PDone (Returned i1) → t_pc t2 = PDone (Returned i2) →
     i1 = i2 ∧ instances σ.2 !! t_cls t1 = Some i1) ∧
  (∀ c, constructions c (events σ.2) ≤ 1).
Proof.
  intros Hfresh Hn. pose proof (reachable_inv pool n σ Hfresh Hn) as HI.
  split.
  - intros k1 k2 t1 t2 i1 i2 H1 H2 Hc Hp1 Hp2.
    pose proof (inv_threads _ _ HI k1 t1 H1) as Ho1.
    pose proof (inv_threads _ _ HI k2 t2 H2) as Ho2.
    unfold thread_ok in Ho1, Ho2. rewrite Hp1 in Ho1. rewrite Hp2 in Ho2.
    split; [congruence | done].
  - intros c. apply (inv_once _ _ HI c).
Qed.



(** X4.  How a call ends is decided by the constructor alone: a call that
    returned has the instance kept for its class, an object that a
    constructor of that class built; a call ends with an exception only
    when its own constructor raises; and the look-up after the [with]
    block, made without the lock, never fails with [KeyError]. *)
Theorem calls_end_as_constructor_allows (pool : list (Thread Args)) n σ k t r :
  fresh_pool pool →
  nsteps (step construct) n (pool, init_shared) σ →
  σ.1 !! k = Some t → t_pc t = PDone r →
  match r with
  | Returned i =>
      instances σ.2 !! t_cls t = Some i ∧
      ∃ a o, construct (t_cls t) a = Some o ∧ heap σ.2 !! i = Some o
  | RaisedInit => construct (t_cls t) (t_args t) = None
  | RaisedKeyError => False
  end.
Proof.
  intros Hfresh Hn Hk Hpc.
  pose proof (reachable_inv pool n σ Hfresh Hn) as HI.
  pose proof (inv_threads _ _ HI k t Hk) as Hok.
  unfold thread_ok in Hok. rewrite Hpc in Hok.
  destruct r as [i | |]; [| done | done].
  split; [done |]. exact (inv_valid _ _ HI _ _ Hok).
Qed.






(** *** One call at a time, again *)

(** X6.  What a call leaves behind, whatever its class, arguments and
    result: the lock is free again, the entries of all other classes are
    as they were, an entry that was there is still there with the same
    instance, the objects built before are untouched, and the call did not
    end with [KeyError].  A call can only return at all if the lock was
    free when it started. *)
Theorem call_frame s c a r s' :
  call construct c a s = Some (r, s') →
  lock s = false ∧ lock s' = false ∧
  r ≠ RaisedKeyError ∧
  (∀ c', c' ≠ c → instances s' !! c' = instances s !! c') ∧
  (∀ i, instances s !! c = Some i →
        r = Returned i ∧ instances s' = instances s ∧ heap s' = heap s) ∧
  (∃ l, heap s' = heap s ++ l).
Proof.
  intros Hcall.
  destruct (lock s) eqn:Hl.
  { by rewrite call_blocked in Hcall. }
  destruct (instances s !! c) as [j |] eqn:Hi.
  - rewrite (call_existing _ s c a j Hl Hi) in Hcall. simplify_eq. simpl.
    split_and!; try done.
    + intros i ?. by simplify_eq.
    + exists []. by rewrite app_nil_r.
  - destruct (construct c a) as [o |] eqn:Ho.
    + rewrite (call_fresh _ s c a o Hl Hi Ho) in Hcall. simplify_eq. simpl.
      split_and!; try done.
      * intros c' Hne. by rewrite lookup_insert_ne.
      * by eexists.
    + rewrite (call_raises _ s c a Hl Hi Ho) in Hcall. simplify_eq. simpl.
      split_and!; try done.
      exists []. by rewrite app_nil_r.
Qed.

(** X7.  A constructor that raises leaves no trace: the exception comes
    out of the call, the lock is released, nothing is stored for the class
    and no object is built, so a later call whose constructor succeeds
    builds the instance as if it were the first. *)
Theorem failed_construction_can_be_retried s c a b o :
  lock s = false → instances s !! c = None →
  construct c a = None → construct c b = Some o →
  ∃ s1 s2,
    call construct c a s = Some (RaisedInit, s1) ∧
    lock s1 = false ∧ instances s1 = instances s ∧ heap s1 = heap s ∧
    constructions c (events s1) = constructions c (events s) ∧
    call construct c b s1 = Some (Returned (length (heap s)), s2) ∧
    instances s2 !! c = Some (length (heap s)) ∧
    heap s2 !! length (heap s) = Some o.
Proof.
  intros Hl Hi Ha Hb.
  exists (locked_lookup s). eexists.
  split; [by apply call_raises |].
  split; [done |]. split; [done |]. split; [done |]. split.
  { simpl. by rewrite !constructions_snoc, !Nat.add_0_r. }
  split; [by apply (call_fresh _ (locked_lookup s) c b o) |].
  simpl. split; [apply lookup_insert_eq |].
  by rewrite lookup_app_r, Nat.sub_diag.
Qed.

End MetaExtras.

(** * More facts about the entry point *)

Section MainExtras.



(** Case analysis on everything a run of [main] branches on, in the goal. *)
Ltac main_cases :=
  unfold Main.main, editor_found; cbn;
  repeat match goal with
         | |- context [negb ?x] =>
             let E := fresh "E" in destruct x eqn:E; cbn
         | |- context [if ?x then _ else _] =>
             let E := fresh "E" in destruct x eqn:E; cbn
         | |- context [match ?x with Some _ => _ | None => _ end] =>
             let E := fresh "E" in destruct x eqn:E; cbn
         | |- context [match ?x with Ok _ => _ | Err _ => _ end] =>
             let E := fresh "E" in destruct x eqn:E; cbn
         end.

Ltac find_event := simpl; repeat first [left; reflexivity | right].

Ltac break_hyps :=
  repeat match goal with
         | H : _ ∨ _ |- _ => destruct H
         | H : _ ∧ _ |- _ => destruct H
         | H : ∃ _, _ |- _ => destruct H
         end.


(** X9.  When [main] succeeds.  It returns 0 exactly when an editor is
    found and either [--list] is given; or, failing that, [--remove X] is
    given, [X] resolves and the file is unlinked; or, failing both, [--open
    X] is given, [X] resolves and the editor command succeeds; or, failing
    all three, the status flag is given. *)
Theorem main_succeeds_iff ie a :
  (exec (Main.main ie) a).2 = Returns 0%Z ↔
  editor_found a = true ∧
  (Cli.list_sessions (ans_args a) = true ∨
   (Cli.list_sessions (ans_args a) = false ∧
    ∃ X p, truthy (Cli.remove_session (ans_args a)) = Some X ∧
           ans_remove_session a X = Ok p ∧ ans_unlink a p = None) ∨
   (Cli.list_sessions (ans_args a) = false ∧
    truthy (Cli.remove_session (ans_args a)) = None ∧
    ∃ X p u, truthy (Cli.open_session (ans_args a)) = Some X ∧
             ans_open_session a X = Ok p ∧
             ans_execute a ("nvim -S " +:+ p) = Ok u) ∨
   (Cli.list_sessions (ans_args a) = false ∧
    truthy (Cli.remove_session (ans_args a)) = None ∧
    truthy (Cli.open_session (ans_args a)) = None ∧
    Cli.the_current_state_of_things (ans_args a) = true)).
Proof.
  main_cases; split.
  all: try (intros Hz; discriminate Hz).
  all: try (intros _; split; [done |];
            first [ left; done
                  | right; left; split; [done |];
                    do 2 eexists; split_and!;
                    first [reflexivity | eassumption]
                  | right; right; left; split_and!; try done;
                    do 3 eexists; split_and!;
                    first [reflexivity | eassumption]
                  | right; right; right; done ]; fail).
  all: intros [He Hd]; break_hyps; simplify_eq; congruence.
Qed.

(** X10.  An error is logged exactly in the runs that end with [return 1]:
    no failure goes unreported and no error is logged on a run that
    succeeds. *)
Theorem error_logged_iff_exit_one ie a :
  (exec (Main.main ie) a).2 = Returns 1%Z ↔
  ∃ m, In (EvLog LError m) (exec (Main.main ie) a).1.
Proof.
  main_cases; split; try done.
  all: try (intros _; eexists; find_event; fail).
  all: intros [m Hin]; repeat (destruct Hin as [Hin | Hin]; try discriminate);
    done.
Qed.


(** X12.  The three ways [--remove X] ends once [remove_session] has been
    called on [X].  Resolved and unlinked: "Done.." is logged and [main]
    returns 0.  Resolved but [unlink] raises: the exception ends the run,
    "Done.." is not logged and there is no return value.  Not resolved:
    the error is logged, nothing is unlinked and [main] returns 1. *)
Theorem remove_outcome ie a X r :
  In (EvRemoveSession X r) (exec (Main.main ie) a).1 →
  truthy (Cli.remove_session (ans_args a)) = Some X ∧
  match r with
  | Ok p =>
      match ans_unlink a p with
      | None =>
          In (EvLog LInfo (MsgText "Done..")) (exec (Main.main ie) a).1 ∧
          (exec (Main.main ie) a).2 = Returns 0%Z
      | Some e =>
          ¬ In (EvLog LInfo (MsgText "Done..")) (exec (Main.main ie) a).1 ∧
          (exec (Main.main ie) a).2 = Raises e
      end
  | Err e =>
      In (EvLog LError (MsgSession e)) (exec (Main.main ie) a).1 ∧
      (∀ p r', ¬ In (EvUnlink p r') (exec (Main.main ie) a).1) ∧
      (exec (Main.main ie) a).2 = Returns 1%Z
  end.
Proof.
  intros Hin.
  destruct (exec (Main.main ie) a) as [tr out] eqn:Hexec.
  unfold Main.main in Hexec; cbn in Hexec;
    repeat match type of Hexec with
           | context [negb ?x] =>
               let E := fresh "E" in destruct x eqn:E; cbn in Hexec
           | context [if ?x then _ else _] =>
               let E := fresh "E" in destruct x eqn:E; cbn in Hexec
           | context [match ?x with Some _ => _ | None => _ end] =>
               let E := fresh "E" in destruct x eqn:E; cbn in Hexec
           | context [match ?x with Ok _ => _ | Err _ => _ end] =>
               let E := fresh "E" in destruct x eqn:E; cbn in Hexec
           end;
    injection Hexec as <- <-; simpl in Hin |- *.
  all: repeat (destruct Hin as [Hin | Hin]; try discriminate); try done.
  all: simplify_eq; simpl.
  all: repeat match goal with
              | E : ?x = _ |- context [match ?x with _ => _ end] => rewrite E
              end.
  all: split_and!; try done; try find_event.
  all: try (intros Hx; simpl in Hx; intuition discriminate).
  all: intros q r' Hx;
    repeat (destruct Hx as [Hx | Hx]; try discriminate); done.
Qed.

(** X13.  The only command [main] ever executes is [nvim -S] followed by
    the path that [open_session] resolved for the value of [--open], and
    only in a run without [--list] and without [--remove]. *)
Theorem only_nvim_is_executed ie a cmd r :
  In (EvExecute cmd r) (exec (Main.main ie) a).1 →
  editor_found a = true ∧
  Cli.list_sessions (ans_args a) = false ∧
  truthy (Cli.remove_session (ans_args a)) = None ∧
  r = ans_execute a cmd ∧
  ∃ X p, truthy (Cli.open_session (ans_args a)) = Some X ∧
         ans_open_session a X = Ok p ∧
         cmd = "nvim -S " +:+ p.
Proof.
  main_cases; intros Hin;
    repeat (destruct Hin as [Hin | Hin]; try discriminate); try done.
  all: simplify_eq; split_and!; eauto.
Qed.

(** X14.  The preflight accepts [vim] in place of [nvim], the open branch
    does not: with [nvim] missing and [vim] installed, [--open X] on a
    session that resolves still executes [nvim -S], after both look-ups. *)
Theorem open_with_vim_only_runs_nvim ie a X p :
  ans_is_installed a "nvim" = false →
  ans_is_installed a "vim" = true →
  Cli.list_sessions (ans_args a) = false →
  truthy (Cli.remove_session (ans_args a)) = None →
  truthy (Cli.open_session (ans_args a)) = Some X →
  ans_open_session a X = Ok p →
  ∃ rest,
    (exec (Main.main ie) a).1 =
    [EvNewShellManager;
     EvIsInstalled "nvim" false;
     EvIsInstalled "vim" true;
     EvNewCli (ans_args a);
     EvNewSessionManager;
     EvOpenSession X (Ok p);
     EvLog LInfo (MsgText ("Loading session -> " +:+ p));
     EvExecute ("nvim -S " +:+ p) (ans_execute a ("nvim -S " +:+ p))]
    ++ rest.
Proof.
  intros Hn Hv Hl Hr Ho Hp.
  unfold Main.main. cbn. rewrite Hn. cbn. rewrite Hv. cbn.
  rewrite Hl. cbn. rewrite Hr. cbn. rewrite Ho. cbn. rewrite Hp. cbn.
  destruct (ans_execute a ("nvim -S " +:+ p)); cbn; eauto.
Qed.

(** X15.  When [main] touches files or starts a process: exactly when an
    editor is found and one of [--list], [--remove] and [--open] is given.
    The failed preflight, the status flag and the bare invocation leave the
    disk alone. *)
Theorem filesystem_touched_iff ie a :
  Exists (λ e, touches_filesystem e = true) (exec (Main.main ie) a).1 ↔
  editor_found a = true ∧
  (Cli.list_sessions (ans_args a) = true ∨
   truthy (Cli.remove_session (ans_args a)) ≠ None ∨
   truthy (Cli.open_session (ans_args a)) ≠ None).
Proof.
  main_cases; split.
  all: try (intros Hex; apply Exists_exists in Hex as (ev & Hin & Hev);
            apply list_elem_of_In in Hin; simpl in Hin;
            repeat (destruct Hin as [<- | Hin];
                    [simpl in Hev; try discriminate Hev |]);
            try done; (split; [done |]);
            first [left; done | right; left; done | right; right; done];
            fail).
  all: try (intros [? [? | [? | ?]]]; done).
  all: intros _;
    repeat first [apply Exists_cons_hd; reflexivity | apply Exists_cons_tl].
Qed.

End MainExtras.

(** * [Config]: its two directories *)

Section ConfigExtras.

Lemma append_cancel_l (a x y : string) : a +:+ x = a +:+ y → x = y.
Proof.
  induction a as [| c a IH]; [done |].
  intros H. apply IH. by injection H.
Qed.

(** X16.  The directory reserved for the tool's own configuration and the
    default sessions directory are both entries of [<home>/.config], and
    they are the same directory only for a package named [vim_sessions]. *)
Theorem config_dir_is_not_sessions_dir ie :
  is_absolute (import_package ie) = false →
  Config.config_dir ie = home_dir ie +:+ "/.config/" +:+ import_package ie ∧
  (Config.config_dir ie = Config.default_sessions_directory ie ↔
   import_package ie = "vim_sessions").
Proof.
  intros Hrel.
  assert (Config.config_dir ie =
          home_dir ie +:+ "/.config/" +:+ import_package ie) as Hc.
  { unfold Config.config_dir, path_div. rewrite Hrel.
    change (is_absolute ".config") with false. cbv iota.
    by rewrite append_assoc. }
  assert (Config.default_sessions_directory ie =
          home_dir ie +:+ "/.config/" +:+ "vim_sessions") as Hd.
  { unfold Config.default_sessions_directory, path_div.
    change (is_absolute ".config") with false.
    change (is_absolute "vim_sessions") with false. cbv iota.
    by rewrite append_assoc. }
  split; [done |]. rewrite Hc, Hd. split.
  - intros H. apply append_cancel_l in H.
    by apply (append_cancel_l "/.config/") in H.
  - by intros ->.
Qed.

End ConfigExtras.

(** * The samples, run once more *)

Section MoreSamples.

Import ThreadSafeMeta.

Ltac find_event := simpl; repeat first [left; reflexivity | right].

Lemma config_calls_fresh m : fresh_pool (config_calls m).
Proof. intros k t Hk. by apply lookup_replicate in Hk as [-> _]. Qed.

Lemma two_boxes_fresh : fresh_pool two_boxes.
Proof. intros [| [| k]] t Hk; simplify_eq/=; done. Qed.

Lemma two_boxes_done_reached :
  nsteps (step box_class) 12 (two_boxes, init_shared) two_boxes_done.
Proof.
  do 6 (eapply nsteps_l;
        [eapply (step_thread box_class _ _ 0); reflexivity |]).
  do 6 (eapply nsteps_l;
        [eapply (step_thread box_class _ _ 1); reflexivity |]).
  apply nsteps_O.
Qed.

Lemma mutual_exclusion_witness :
  fresh_pool (config_calls 2) ∧
  nsteps (step package_classes) 3 (config_calls 2, init_shared)
    two_calls_midway ∧
  (lock two_calls_midway.2 = true ↔
   ∃ k t, two_calls_midway.1 !! k = Some t ∧ in_cs (t_pc t) = true).
Proof.
  split; [apply config_calls_fresh |].
  split; [exact two_calls_midway_reached |].
  exact (proj2 (mutual_exclusion package_classes (config_calls 2) 3
                  two_calls_midway (config_calls_fresh 2)
                  two_calls_midway_reached)).
Defined.

Lemma one_instance_per_class_witness :
  fresh_pool two_boxes ∧
  nsteps (step box_class) 12 (two_boxes, init_shared) two_boxes_done ∧
  (∀ c, constructions c (events two_boxes_done.2) ≤ 1).
Proof.
  split; [apply two_boxes_fresh |].
  split; [exact two_boxes_done_reached |].
  exact (proj2 (one_instance_per_class box_class two_boxes 12
                  two_boxes_done two_boxes_fresh two_boxes_done_reached)).
Defined.


Lemma calls_end_as_constructor_allows_witness :
  fresh_pool two_boxes ∧
  nsteps (step box_class) 12 (two_boxes, init_shared) two_boxes_done ∧
  instances two_boxes_done.2 !! "B" = Some 1 ∧
  ∃ a o, box_class "B" a = Some o ∧ heap two_boxes_done.2 !! 1 = Some o.
Proof.
  split; [apply two_boxes_fresh |].
  split; [exact two_boxes_done_reached |].
  exact (calls_end_as_constructor_allows box_class two_boxes 12
           two_boxes_done 1 (MkThread "B" 2%Z (PDone (Returned 1)))
           (Returned 1) two_boxes_fresh two_boxes_done_reached
           eq_refl eq_refl).
Defined.


Lemma call_frame_witness :
  call box_class "Box" 2%Z after_first_box =
    Some (Returned 0, locked_lookup after_first_box) ∧
  lock after_first_box = false ∧
  lock (locked_lookup after_first_box) = false ∧
  (∀ c', c' ≠ "Box" →
         instances (locked_lookup after_first_box) !! c' =
         instances after_first_box !! c') ∧
  (∃ l, heap (locked_lookup after_first_box) = heap after_first_box ++ l).
Proof.
  assert (call box_class "Box" 2%Z after_first_box =
          Some (Returned 0, locked_lookup after_first_box)) as Hcall
    by reflexivity.
  split; [exact Hcall |].
  destruct (call_frame box_class after_first_box "Box" 2%Z (Returned 0)
              (locked_lookup after_first_box) Hcall)
    as (H1 & H2 & _ & H4 & _ & H6).
  exact (conj H1 (conj H2 (conj H4 H6))).
Defined.

Lemma failed_construction_can_be_retried_witness :
  (lock (init_shared (ObjState := gmap string PyVal)) = false ∧
   instances (init_shared (ObjState := gmap string PyVal)) !! "Config" = None ∧
   package_classes "Config" one_arg = None ∧
   package_classes "Config" no_args = Some ∅) ∧
  ∃ s1 s2,
    call package_classes "Config" one_arg init_shared =
      Some (RaisedInit, s1) ∧
    call package_classes "Config" no_args s1 = Some (Returned 0, s2) ∧
    instances s2 !! "Config" = Some 0.
Proof.
  split; [repeat split |].
  destruct (failed_construction_can_be_retried package_classes init_shared
              "Config" one_arg no_args ∅ eq_refl eq_refl eq_refl eq_refl)
    as (s1 & s2 & H1 & _ & _ & _ & _ & H2 & H3 & _).
  exists s1, s2. exact (conj H1 (conj H2 H3)).
Defined.


Lemma remove_outcome_witness :
  In (EvRemoveSession "work.vim" (Ok work_session))
     (exec (Main.main sample_env) (answers_of sample_env remove_world)).1 ∧
  In (EvLog LInfo (MsgText "Done.."))
     (exec (Main.main sample_env) (answers_of sample_env remove_world)).1 ∧
  (exec (Main.main sample_env) (answers_of sample_env remove_world)).2 =
    Returns 0%Z.
Proof.
  assert (In (EvRemoveSession "work.vim" (Ok work_session))
            (exec (Main.main sample_env)
               (answers_of sample_env remove_world)).1) as Hin.
  { vm_compute. find_event. }
  split; [exact Hin |].
  destruct (remove_outcome sample_env (answers_of sample_env remove_world)
              "work.vim" (Ok work_session) Hin) as [_ H].
  exact H.
Defined.

Lemma only_nvim_is_executed_witness :
  In (EvExecute ("nvim -S " +:+ work_session) (Ok tt))
     (exec (Main.main sample_env) (answers_of sample_env open_world)).1 ∧
  ∃ X p,
    truthy (Cli.open_session
              (ans_args (answers_of sample_env open_world))) = Some X ∧
    ans_open_session (answers_of sample_env open_world) X = Ok p ∧
    "nvim -S " +:+ work_session = "nvim -S " +:+ p.
Proof.
  assert (In (EvExecute ("nvim -S " +:+ work_session) (Ok tt))
            (exec (Main.main sample_env)
               (answers_of sample_env open_world)).1) as Hin.
  { vm_compute. find_event. }
  split; [exact Hin |].
  destruct (only_nvim_is_executed sample_env
              (answers_of sample_env open_world) _ _ Hin)
    as (_ & _ & _ & _ & H).
  exact H.
Defined.

Lemma open_with_vim_only_runs_nvim_witness :
  (ans_is_installed (answers_of sample_env vim_only_world) "nvim" = false ∧
   ans_is_installed (answers_of sample_env vim_only_world) "vim" = true) ∧
  ∃ rest,
    (exec (Main.main sample_env) (answers_of sample_env vim_only_world)).1 =
    [EvNewShellManager;
     EvIsInstalled "nvim" false;
     EvIsInstalled "vim" true;
     EvNewCli (ans_args (answers_of sample_env vim_only_world));
     EvNewSessionManager;
     EvOpenSession "work.vim" (Ok work_session);
     EvLog LInfo (MsgText ("Loading session -> " +:+ work_session));
     EvExecute ("nvim -S " +:+ work_session)
       (ans_execute (answers_of sample_env vim_only_world)
          ("nvim -S " +:+ work_session))]
    ++ rest.
Proof.
  split; [split; reflexivity |].
  exact (open_with_vim_only_runs_nvim sample_env
           (answers_of sample_env vim_only_world) "work.vim" work_session
           eq_refl eq_refl eq_refl eq_refl eq_refl eq_refl).
Defined.

Lemma config_dir_is_not_sessions_dir_witness :
  is_absolute (import_package sample_env) = false ∧
  Config.config_dir sample_env = "/home/user/.config/vsm" ∧
  Config.config_dir sample_env ≠ Config.default_sessions_directory sample_env.
Proof.
  split; [reflexivity |].
  destruct (config_dir_is_not_sessions_dir sample_env eq_refl) as [H1 H2].
  split; [exact H1 |].
  intros H. apply H2 in H. discriminate H.
Defined.

End MoreSamples.
